(** * skydns: the DNSSEC signing subsystem of [server/dnssec.go]

    A shallow embedding of the RRset grouper ([rrSets]), the signature
    cache ([sigCache]), the single-flight coordinator ([single.Do]), the
    denial index ([denialList]) and the signer ([Server.sign]), with the
    properties the specification states about them. *)

From Stdlib Require Import ZArith Lia.
From stdpp Require Import gmap strings list fin_maps sorting.

Local Open Scope Z_scope.

(** ** Resource records

    [dns.RR] is an interface; every record carries an [RR_Header] and the
    fields of its concrete type.  Unsigned fields are integers in their
    range, strings are Go strings (byte sequences). *)

Record RR_Header := mkHeader {
  Name : string;
  Rrtype : Z;   (* uint16 *)
  Class : Z;    (* uint16 *)
  Ttl : Z;      (* uint32 *)
  Rdlength : Z  (* uint16 *)
}.

(** The rdata of an RRSIG, as [dns.RRSIG] has it. *)
Record RRSIG_rdata := mkSigData {
  TypeCovered : Z;
  Algorithm : Z;
  Labels : Z;
  OrigTtl : Z;
  Expiration : Z;   (* uint32 *)
  Inception : Z;    (* uint32 *)
  KeyTag : Z;
  SignerName : string;
  Signature : string
}.

(** The dynamic type of a record, the one a Go type switch inspects. *)
Inductive RData :=
  | SOA (Ns Mbox : string) (Serial Refresh Retry Expire Minttl : Z)
  | SRV (Priority Weight Port : Z) (Target : string)
  | A (ip : list Z)
  | AAAA (ip : list Z)
  | DNSKEY (Flags Protocol Alg : Z) (PublicKey : string)
  | NSEC (NextDomain : string) (TypeBitMap : list Z)
  | RRSIGd (d : RRSIG_rdata)
  | OPT (udpsize : Z) (do : bool)
  | Other (raw : list Z).

Record RR := mkRR { Hdr : RR_Header; Data : RData }.

(** A [*dns.RRSIG]. *)
Record RRSIG := mkRRSIG { sigHdr : RR_Header; sigData : RRSIG_rdata }.

Definition rr_of_sig (s : RRSIG) : RR :=
  {| Hdr := sigHdr s; Data := RRSIGd (sigData s) |}.

Definition TypeA : Z := 1.
Definition TypeNS : Z := 2.
Definition TypeSOA : Z := 6.
Definition TypeAAAA : Z := 28.
Definition TypeSRV : Z := 33.
Definition TypeOPT : Z := 41.
Definition TypeRRSIG : Z := 46.
Definition TypeNSEC : Z := 47.
Definition TypeDNSKEY : Z := 48.
Definition ClassINET : Z := 1.

(** ** Go slices

    A slice is a view of length [len] on a backing array; [cap] is the
    length of the array.  [append] writes in place while there is room, so
    the array is shared between the slice appended to and the result, but
    the length of the former does not change. *)

Module Slice.

Record slice := mkSlice { arr : list (option RR); len : nat }.

Definition cap (s : slice) : nat := length (arr s).

(** The records a reader of the slice sees. *)
Definition elems (s : slice) : list RR := omap id (take (len s) (arr s)).

(** [s := make([]dns.RR, 1, 3); s[0] = r] *)
Definition make_1_3 (r : RR) : slice :=
  {| arr := [Some r; None; None]; len := 1 |}.

(** [append(s, r)]: the slice returned, and [s] itself as it is afterwards
    (same length, the shared array possibly written).  Without room a
    larger array is allocated and [s] is untouched. *)
Definition append (s : slice) (r : RR) : slice * slice :=
  if bool_decide (len s < cap s)%nat then
    let a := <[len s := Some r]> (arr s) in
    ({| arr := a; len := S (len s) |}, {| arr := a; len := len s |})
  else
    ({| arr := take (len s) (arr s) ++ Some r :: replicate (len s) None;
        len := S (len s) |}, s).

End Slice.

(** ** The RRset grouper *)

(** [type rrset struct { qname string; qclass uint16; qtype uint16 }] *)
Definition rrset : Type := string * Z * Z.

Definition rrset_of (r : RR) : rrset :=
  (Name (Hdr r), Class (Hdr r), Rrtype (Hdr r)).

(** The body of the loop of [rrSets].  In the first branch the result of
    [append] is assigned to the local [s] only: the map keeps its own slice
    header. *)
Definition rrSets_step (m : gmap rrset Slice.slice) (r : RR)
  : gmap rrset Slice.slice :=
  match m !! rrset_of r with
  | Some s =>
      let '(_, s_in_map) := Slice.append s r in
      <[rrset_of r := s_in_map]> m
  | None => <[rrset_of r := Slice.make_1_3 r]> m
  end.

Definition rrSets_loop (rrs : list RR) (m : gmap rrset Slice.slice)
  : gmap rrset Slice.slice :=
  foldl rrSets_step m rrs.

(** [rrSets]: [None] is the nil map returned when no group was made. *)
Definition rrSets (rrs : list RR) : option (gmap rrset Slice.slice) :=
  let m := rrSets_loop rrs ∅ in
  if bool_decide (0 < size m)%nat then Some m else None.

(** The group of a key, as a caller ranging over the result reads it. *)
Definition group (rrs : list RR) (k : rrset) : option (list RR) :=
  match rrSets rrs with
  | Some m => Slice.elems <$> (m !! k)
  | None => None
  end.

(** The slices [rrSets] keeps in its map: length one, capacity three. *)
Definition made (s : Slice.slice) : Prop :=
  Slice.len s = 1%nat ∧ ∃ r x y, Slice.arr s = [Some r; x; y].

(** What the specification asks of the grouper: the group of a key holds
    all the records of that key, in order. *)
Definition records_of (k : rrset) (rrs : list RR) : list RR :=
  filter (λ r, rrset_of r = k) rrs.

(** ** Integers and bytes *)

(** Go's [int] is 64 bits wide here; arithmetic on it wraps around. *)
Definition wrap_int (z : Z) : Z := (z + 2 ^ 63) mod 2 ^ 64 - 2 ^ 63.
Definition maxInt : Z := 2 ^ 63 - 1.

(** Conversion to [uint32]. *)
Definition to_uint32 (z : Z) : Z := z mod 2 ^ 32.

(** Conversion to [byte]. *)
Definition to_byte (z : Z) : Z := Z.land z 255.

(** [[]byte(s)] *)
Definition bytes_of_string (s : string) : list Z :=
  (λ c, Z.of_N (Ascii.N_of_ascii c)) <$> String.list_ascii_of_string s.

(** [func packUint16(i uint16) []byte { return []byte{byte(i >> 8), byte(i)} }] *)
Definition packUint16 (i : Z) : list Z :=
  [to_byte (Z.shiftr i 8); to_byte i].

(** [func packUint32(i uint32) []byte] *)
Definition packUint32 (i : Z) : list Z :=
  [to_byte (Z.shiftr i 24); to_byte (Z.shiftr i 16);
   to_byte (Z.shiftr i 8); to_byte i].

(** ** The signature cache *)

Module SigCache.

(** [newCache] *)
Definition newCache : gmap (list Z) RRSIG := ∅.

(** [func (c *sigCache) remove(s string)] *)
Definition remove (s : list Z) (c : gmap (list Z) RRSIG) : gmap (list Z) RRSIG :=
  delete s c.

(** [func (c *sigCache) insert(s string, r *dns.RRSIG)] *)
Definition insert (s : list Z) (r : RRSIG) (c : gmap (list Z) RRSIG)
  : gmap (list Z) RRSIG :=
  match c !! s with
  | Some _ => c
  | None => <[s := r]> c
  end.

(** [func (c *sigCache) search(s string) *dns.RRSIG]: a copy of the entry,
    [None] for nil. *)
Definition search (s : list Z) (c : gmap (list Z) RRSIG) : option RRSIG :=
  c !! s.

(** The SHA-1 digest of the empty input.  [key] creates a hash, writes
    nothing to it and calls [h.Sum(i)], which appends the digest of what
    was written to [i]. *)
Definition sha1_of_nothing : list Z :=
  [218; 57; 163; 238; 94; 107; 75; 13; 50; 85;
   191; 239; 149; 96; 24; 144; 175; 216; 7; 9].

Definition Sum (i : list Z) : list Z := i ++ sha1_of_nothing.

(** The bytes one record adds in the type switch of [key]. *)
Definition key_rdata (r : RR) : list Z :=
  match Data r with
  | SOA _ _ Serial _ _ _ _ => packUint32 Serial
  | SRV Priority Weight _ Target =>
      packUint16 Priority ++ packUint16 Weight ++ packUint16 Weight
        ++ bytes_of_string Target
  | A ip => ip
  | AAAA ip => ip
  | DNSKEY _ _ _ _ => []
  | NSEC _ _ => []
  | _ => []
  end.

(** [func (c *sigCache) key(rrs []dns.RR) string]; [rrs[0]] panics on an
    empty set ([None]). *)
Definition key (rrs : list RR) : option (list Z) :=
  r0 ← head rrs;
  let i := bytes_of_string (Name (Hdr r0)) ++ packUint16 (Rrtype (Hdr r0)) in
  Some (Sum (foldl (λ i r, i ++ key_rdata r) i rrs)).

End SigCache.

(** ** The denial index *)

Module msg.
(** The fields of [msg.Service] the denial index reads. *)
Record Service := mkService {
  Region : string;
  Version : string;
  Name : string;
  Environment : string
}.
End msg.

Module Denial.

(** [type denialref struct { name string; reference int }] *)
Record denialref := mkRef { name : string; reference : Z }.

(** [sort.Search(n, f)] of the Go library: the loop
    [for i < j { h := int(uint(i+j) >> 1); if !f(h) { i = h + 1 } else { j = h } }]. *)
Fixpoint search_loop (fuel : nat) (f : nat → bool) (i j : nat) : nat :=
  match fuel with
  | O => i
  | S fuel =>
      if bool_decide (i < j)%nat then
        let h := ((i + j) / 2)%nat in
        if negb (f h) then search_loop fuel f (h + 1)%nat j
        else search_loop fuel f i h
      else i
  end.

Definition sort_Search (n : nat) (f : nat → bool) : nat :=
  search_loop n f 0%nat n.

(** [func(i int) bool { return d.list[l-1][i].name >= x }] *)
Definition name_ge (reg : list denialref) (x : string) (i : nat) : bool :=
  match reg !! i with
  | Some r => String.leb x (name r)
  | None => false
  end.

(** [copy(a[d:], a[s:])] within one array. *)
Definition copy_within (a : list denialref) (d s : nat) : list denialref :=
  let src := drop s a in
  let n := ((length a - d) `min` length src)%nat in
  take d a ++ take n src ++ drop (d + n)%nat a.

(** Indexing with a Go [int]: out of range panics ([None]). *)
Definition index (reg : list denialref) (i : Z) : option denialref :=
  if bool_decide (0 ≤ i) then reg !! Z.to_nat i else None.

(** [insert] on the registry [d.list[l-1]]. *)
Definition insert_reg (x : string) (reg : list denialref) : list denialref :=
  let i := sort_Search (length reg) (name_ge reg x) in
  let shifted :=
    let reg1 := reg ++ [mkRef "" 0] in
    let reg2 := copy_within reg1 (i + 1)%nat i in
    <[i := mkRef x 1]> reg2 in
  match reg !! i with
  | Some r =>
      if decide (name r = x)
      then <[i := mkRef (name r) (wrap_int (reference r + 1))]> reg
      else shifted
  | None => shifted
  end.

(** [remove] on the registry [d.list[l-1]]. *)
Definition remove_reg (x : string) (reg : list denialref) : list denialref :=
  let i := sort_Search (length reg) (name_ge reg x) in
  match reg !! i with
  | Some r =>
      if decide (name r = x) then
        let r' := mkRef (name r) (wrap_int (reference r - 1)) in
        let reg1 := <[i := r']> reg in
        if decide (reference r' = 0) then
          let reg2 := copy_within reg1 i (i + 1)%nat in
          let reg3 := <[(length reg2 - 1)%nat := mkRef "" 0]> reg2 in
          take (length reg3 - 1)%nat reg3
        else reg1
      else reg
  | None => reg
  end.

(** [search] on the registry [d.list[l-1]]; [None] is the index-out-of-range
    panic. *)
Definition search_reg (x : string) (reg : list denialref)
  : option (string * string) :=
  let i := Z.of_nat (sort_Search (length reg) (name_ge reg x)) in
  if bool_decide (i = 1) then
    n ← index reg i; Some (""%string, name n)
  else
    p ← index reg (i - 1); n ← index reg i; Some (name p, name n).

(** [list [4][]denialref] and [newDenialList]. *)
Definition newDenialList : list (list denialref) := [[]; []; []; []].

(** [d.list[l-1]] *)
Definition at_depth (d : list (list denialref)) (l : Z)
  : option (list denialref) :=
  if bool_decide (1 ≤ l) then d !! Z.to_nat (l - 1) else None.

(** [func (d *denialList) insert(x string, l int)] *)
Definition insert (x : string) (l : Z) (d : list (list denialref))
  : option (list (list denialref)) :=
  reg ← at_depth d l; Some (<[Z.to_nat (l - 1) := insert_reg x reg]> d).

(** [func (d *denialList) remove(x string, l int)] *)
Definition remove (x : string) (l : Z) (d : list (list denialref))
  : option (list (list denialref)) :=
  reg ← at_depth d l; Some (<[Z.to_nat (l - 1) := remove_reg x reg]> d).

(** [func (d *denialList) search(x string, l int) (string, string)] *)
Definition search (x : string) (l : Z) (d : list (list denialref))
  : option (string * string) :=
  reg ← at_depth d l; search_reg x reg.

(** [func addServiceNSEC(s msg.Service)] *)
Definition addServiceNSEC (s : msg.Service) (d : list (list denialref))
  : option (list (list denialref)) :=
  d ← insert (msg.Region s +:+ "." +:+ msg.Version s +:+ "." +:+ msg.Name s
               +:+ "." +:+ msg.Environment s) 4 d;
  d ← insert (msg.Version s +:+ "." +:+ msg.Name s +:+ "."
               +:+ msg.Environment s) 3 d;
  d ← insert (msg.Name s +:+ "." +:+ msg.Environment s) 2 d;
  insert (msg.Environment s) 1 d.

(** [func removeServiceNSEC(s msg.Service)] *)
Definition removeServiceNSEC (s : msg.Service) (d : list (list denialref))
  : option (list (list denialref)) :=
  d ← insert (msg.Region s +:+ "." +:+ msg.Version s +:+ "." +:+ msg.Name s
               +:+ "." +:+ msg.Environment s) 4 d;
  d ← insert (msg.Version s +:+ "." +:+ msg.Name s +:+ "."
               +:+ msg.Environment s) 3 d;
  d ← insert (msg.Name s +:+ "." +:+ msg.Environment s) 2 d;
  insert (msg.Environment s) 1 d.

(** The reference count of a name at a depth, [None] when the name has no
    entry. *)
Definition count_of (x : string) (l : Z) (d : list (list denialref))
  : option Z :=
  reg ← at_depth d l;
  reference <$> head (filter (λ r, name r = x) reg).

(** The invariant of a registry: names in strict lexicographic order, no
    name twice, every count positive (and an [int]). *)
Definition str_lt (a b : string) : Prop := String.ltb a b = true.

Definition inv (reg : list denialref) : Prop :=
  StronglySorted str_lt (name <$> reg) ∧ NoDup (name <$> reg) ∧
  Forall (λ r, 0 < reference r ≤ maxInt) reg.

(** The entry of [x], if there is one, can be counted up without leaving
    the range of [int]. *)
Definition room_for (x : string) (reg : list denialref) : Prop :=
  ∀ r, r ∈ reg → name r = x → reference r < maxInt.

End Denial.

(** ** The single-flight coordinator

    [single.Do] under concurrent callers, as a machine that interleaves
    the callers.  A step of a caller is what it does between two points
    where another caller can observe it: a section under [g.Lock], the
    call of [fn] with [c.wg.Done] (nobody reads [c.val] and [c.err] before
    [Done]), the return from [c.wg.Wait], or the [return] of the caller
    that executed [fn], which comes after its second [g.Unlock()]. *)

Module SingleFlight.

Section Do.

(** Keys are Go strings; [R] is the pair [(val, err)] that [fn] returns. *)
Context {K : Type} `{Countable K} {R : Type}.

(** [type call struct]: [res] is [None] while [val] and [err] are still
    zero, [wg_done] tells whether the wait group was released. *)
Record call := mkCall { res : option R; wg_done : bool; dups : Z }.

(** Where a caller of [Do] is. *)
Inductive pc :=
  | Start                       (* before [g.Lock()] *)
  | Running (c : nat)           (* registered [c], about to call [fn] *)
  | Cleanup (c : nat)           (* [fn] returned, before the second [g.Lock()] *)
  | Leaving (c : nat)           (* after the second [g.Unlock()], before [return] *)
  | Waiting (c : nat)           (* in [c.wg.Wait()] *)
  | Returned (c : nat) (r : option R) (shared : bool).

(** The heap of [call] objects, the map [g.m] from keys to them, the
    callers, and the callers that invoked their [fn], in order. *)
Record state := mkState {
  heap : list call;
  g_m : gmap K nat;
  threads : list pc;
  invoked : list nat
}.

(** Caller [t] calls [Do(key t, fn)] where [fn] returns [fn t]. *)
Variable key : nat → K.
Variable fn : nat → R.

Definition step (t : nat) (s : state) : state :=
  match threads s !! t with
  | Some Start =>
      match g_m s !! key t with
      | Some c =>
          match heap s !! c with
          | Some cl =>
              {| heap := <[c := mkCall (res cl) (wg_done cl) (wrap_int (dups cl + 1))]> (heap s);
                 g_m := g_m s;
                 threads := <[t := Waiting c]> (threads s);
                 invoked := invoked s |}
          | None => s
          end
      | None =>
          let c := length (heap s) in
          {| heap := heap s ++ [mkCall None false 0];
             g_m := <[key t := c]> (g_m s);
             threads := <[t := Running c]> (threads s);
             invoked := invoked s |}
      end
  | Some (Running c) =>
      match heap s !! c with
      | Some cl =>
          {| heap := <[c := mkCall (Some (fn t)) true (dups cl)]> (heap s);
             g_m := g_m s;
             threads := <[t := Cleanup c]> (threads s);
             invoked := invoked s ++ [t] |}
      | None => s
      end
  | Some (Cleanup c) =>
      {| heap := heap s;
         g_m := delete (key t) (g_m s);
         threads := <[t := Leaving c]> (threads s);
         invoked := invoked s |}
  | Some (Leaving c) =>
      match heap s !! c with
      | Some cl =>
          {| heap := heap s;
             g_m := g_m s;
             threads := <[t := Returned c (res cl) (bool_decide (0 < dups cl))]> (threads s);
             invoked := invoked s |}
      | None => s
      end
  | Some (Waiting c) =>
      match heap s !! c with
      | Some cl =>
          if wg_done cl then
            {| heap := heap s;
               g_m := g_m s;
               threads := <[t := Returned c (res cl) true]> (threads s);
               invoked := invoked s |}
          else s
      | None => s
      end
  | Some (Returned _ _ _) => s
  | None => s
  end.

(** A schedule names the caller that moves next. *)
Definition run (sched : list nat) (s : state) : state :=
  foldl (λ s t, step t s) s sched.

(** [n] callers that have not started, [g.m] empty. *)
Definition init (n : nat) : state :=
  {| heap := []; g_m := ∅; threads := replicate n Start; invoked := [] |}.

(** What caller [t] got back from [Do]. *)
Definition result (s : state) (t : nat) : option (option R * bool) :=
  match threads s !! t with
  | Some (Returned _ r shared) => Some (r, shared)
  | _ => None
  end.







End Do.

(** *** Invariants of [n] callers with one key

    [k] is the key of every caller, [fn t] what the [fn] of caller [t]
    returns. *)

Section Invariants.

Context {K : Type} `{Countable K} {R : Type}.
Variable n : nat.
Variable k : K.
Variable fn : nat → R.










End Invariants.

(** [Do(key, fn)] by a caller that is alone: the machine with one caller,
    run until it returns. *)
Definition Do_alone {K : Type} `{Countable K} {R : Type} (key : K) (fn : unit → R)
  : option (option R * bool) :=
  result (run (λ _, key) (λ _, fn tt) [0; 0; 0; 0]%nat (init 1)) 0.


End SingleFlight.

(** ** The signer *)

Module Signer.

(** [const origTTL uint32 = 60] *)
Definition origTTL : Z := 60.

(** The parts of a [dns.Msg] that [sign] reads and writes. *)
Record Msg := mkMsg {
  Rcode : Z;
  Answer : list RR;
  Ns : list RR;
  Extra : list RR;
  Truncated : bool
}.

Section Sign.

(** What [sign] takes from the DNS library: the private key type, the
    signing of an RRset ([sig1.Sign(s.Privkey, r)], which fills the
    signature in and may fail), the length of a message ([m.Len()]) and
    the validity of a signature at a time ([s.ValidityPeriod(t)]).  Times
    are seconds since the epoch. *)
Variable PrivateKey : Type.
Variable Sign : PrivateKey → RRSIG → list RR → RRSIG * option string.
Variable Len : Msg → Z.
Variable ValidityPeriod : RRSIG → Z → bool.

(** The fields of [Server] that signing reads. *)
Record Server := mkServer {
  Dnskey_Algorithm : Z;
  Dnskey_Name : string;
  srvKeyTag : Z;
  Privkey : PrivateKey
}.

(** [func (s *Server) newRRSIG(incep, expir uint32) *dns.RRSIG] *)
Definition newRRSIG (s : Server) (incep expir : Z) : RRSIG :=
  {| sigHdr := {| Name := ""; Rrtype := TypeRRSIG; Class := 0;
                  Ttl := origTTL; Rdlength := 0 |};
     sigData := {| TypeCovered := 0; Algorithm := Dnskey_Algorithm s;
                   Labels := 0; OrigTtl := origTTL; Expiration := expir;
                   Inception := incep; KeyTag := srvKeyTag s;
                   SignerName := Dnskey_Name s; Signature := "" |} |}.

(** [incep] and [expir] of [sign]: two hours back, seven days ahead. *)
Definition incep_of (now : Z) : Z := to_uint32 (now - 2 * 3600).
Definition expir_of (now : Z) : Z := to_uint32 (now + 7 * 24 * 3600).

(** The time [sign] checks a cached signature at: [now.Add(-24 * time.Hour)]. *)
Definition check_time (now : Z) : Z := now - 24 * 3600.

(** What [inflight.Do(key, fn)] gives back to the caller in [sign]: the
    pair that [fn] returned ([None] while [c.val] and [c.err] are zero) and
    the flag [shared]; [None] when the caller does not come back. *)
Definition Do_outcome : Type :=
  list Z → (unit → RRSIG * option string) →
  option (option (RRSIG * option string) * bool).

(** The part of the loop body after the cache was consulted: sign through
    [inflight.Do], store the signature unless it was shared, append a
    copy.  [None]: the caller does not come back from [Do]. *)
Definition sign_fresh_with (Do : Do_outcome) (s : Server) (now : Z)
    (key : list Z) (r : list RR)
    (c : gmap (list Z) RRSIG) (section : list RR)
  : option (gmap (list Z) RRSIG * list RR) :=
  '(res, shared) ← Do key
     (λ _, Sign (Privkey s) (newRRSIG s (incep_of now) (expir_of now)) r);
  match res with
  | Some (sig, None) =>
      let c := if negb shared then SigCache.insert key sig c else c in
      Some (c, section ++ [rr_of_sig sig])
  | Some (_, Some _) => Some (c, section)
  | None => Some (c, section)
  end.

(** The body of a loop of [sign] for the RRset [r], on the cache and the
    section ([m.Answer] or [m.Ns]) the signatures are appended to. *)
Definition sign_set_with (Do : Do_outcome) (s : Server) (now : Z)
    (r : list RR) (st : gmap (list Z) RRSIG * list RR)
  : option (gmap (list Z) RRSIG * list RR) :=
  key ← SigCache.key r;
  match SigCache.search key st.1 with
  | Some sig =>
      if ValidityPeriod sig (check_time now)
      then Some (st.1, st.2 ++ [rr_of_sig sig])
      else sign_fresh_with Do s now key r (SigCache.remove key st.1) st.2
  | None => sign_fresh_with Do s now key r st.1 st.2
  end.

(** The same for a request that no other request overlaps with: the
    caller is alone in [Do].  It gets what its [fn] returned, so the last
    branch of [sign_fresh_with] (no value, no error) is never taken. *)
Definition sign_fresh : Server → Z → list Z → list RR →
    gmap (list Z) RRSIG → list RR → option (gmap (list Z) RRSIG * list RR) :=
  sign_fresh_with SingleFlight.Do_alone.

Definition sign_set : Server → Z → list RR →
    gmap (list Z) RRSIG * list RR → option (gmap (list Z) RRSIG * list RR) :=
  sign_set_with SingleFlight.Do_alone.

(** [for _, r := range rrSets(section)]: the sets are taken from the
    section as it is before the loop; Go leaves the order open, here it is
    the order of the map's listing. *)
Definition sign_section (s : Server) (now : Z) (c : gmap (list Z) RRSIG)
    (section : list RR) : option (gmap (list Z) RRSIG * list RR) :=
  let sets :=
    match rrSets section with
    | Some m => (λ kv, Slice.elems kv.2) <$> map_to_list m
    | None => []
    end in
  foldl (λ st r, st ≫= sign_set s now r) (Some (c, section)) sets.

(** The truncation step of [sign]:
    [if bufsize >= 512 || bufsize <= 4096 { m.Truncated = m.Len() > int(bufsize) }]. *)
Definition set_truncated (bufsize : Z) (m : Msg) : Msg :=
  if (512 <=? bufsize) || (bufsize <=? 4096)
  then {| Rcode := Rcode m; Answer := Answer m; Ns := Ns m; Extra := Extra m;
          Truncated := bufsize <? Len m |}
  else m.

(** The OPT record [sign] appends: owner ".", DO bit, UDP size 4096. *)
Definition opt_record : RR :=
  {| Hdr := {| Name := "."; Rrtype := TypeOPT; Class := 4096;
               Ttl := 32768; Rdlength := 0 |};
     Data := OPT 4096 true |}.

(** [func (s *Server) sign(m *dns.Msg, bufsize uint16)] at time [now]. *)
Definition sign (s : Server) (now : Z) (bufsize : Z)
    (c : gmap (list Z) RRSIG) (m : Msg) : option (gmap (list Z) RRSIG * Msg) :=
  '(c, answer) ← sign_section s now c (Answer m);
  '(c, ns) ← sign_section s now c (Ns m);
  let m := {| Rcode := Rcode m; Answer := answer; Ns := ns;
              Extra := Extra m; Truncated := Truncated m |} in
  let m := set_truncated bufsize m in
  Some (c, {| Rcode := Rcode m; Answer := Answer m; Ns := Ns m;
              Extra := Extra m ++ [opt_record]; Truncated := Truncated m |}).

End Sign.

(** [RRSIG.ValidityPeriod] of the DNS library: inception and expiration
    are moved next to [utc] in serial arithmetic ([year68] is [1 << 31],
    Go's division truncates), and [utc] has to lie between them. *)
Definition year68 : Z := 2 ^ 31.

Definition dns_ValidityPeriod (s : RRSIG) (utc : Z) : bool :=
  let modi := Z.quot (Inception (sigData s) - utc) year68 in
  let mode := Z.quot (Expiration (sigData s) - utc) year68 in
  let ti := Inception (sigData s) + modi * year68 in
  let te := Expiration (sigData s) + mode * year68 in
  (ti <=? utc) && (utc <=? te).

(** What the specification asks of a cached signature at [now]: still
    valid 24 hours later. *)
Definition valid_for_a_day (valid : RRSIG → Z → bool) (sig : RRSIG) (now : Z)
  : bool :=
  valid sig (now + 24 * 3600).

End Signer.

(** The record with another TTL, a field the fingerprint has no use for. *)
Definition with_ttl (ttl : Z) (r : RR) : RR :=
  {| Hdr := {| Name := Name (Hdr r); Rrtype := Rrtype (Hdr r);
               Class := Class (Hdr r); Ttl := ttl;
               Rdlength := Rdlength (Hdr r) |};
     Data := Data r |}.

(** ** Service events on the denial index *)

Module DenialEvents.

(** The service registry reports registrations and deregistrations. *)
Inductive event :=
  | Registered (s : msg.Service)
  | Deregistered (s : msg.Service).

Definition apply_event (e : event) (d : list (list Denial.denialref))
  : option (list (list Denial.denialref)) :=
  match e with
  | Registered s => Denial.addServiceNSEC s d
  | Deregistered s => Denial.removeServiceNSEC s d
  end.

(** The index after a sequence of events, [None] if one of them panics. *)
Definition replay (es : list event) (d : list (list Denial.denialref))
  : option (list (list Denial.denialref)) :=
  foldl (λ od e, od ≫= apply_event e) (Some d) es.

(** Every registry keeps its invariant and no count is above [b]. *)
Definition bounded (b : Z) (d : list (list Denial.denialref)) : Prop :=
  length d = 4%nat ∧
  Forall (λ reg, Denial.inv reg ∧
                 Forall (λ r, Denial.reference r ≤ b) reg) d.

End DenialEvents.

(** ** Denial records *)

Module Nsec.

Definition RcodeSuccess : Z := 0.
Definition RcodeNameError : Z := 3.

(** [strings.Join(elems, sep)] *)
Fixpoint Join (elems : list string) (sep : string) : string :=
  match elems with
  | [] => ""
  | a :: rest =>
      match rest with
      | [] => a
      | _ :: _ => a +:+ sep +:+ Join rest sep
      end
  end.

(** [a[lo:hi]]; out of range panics ([None]).  The upper bound is checked
    against the length: [newNSEC] never asks for more than that as long as
    the zone's label count is not negative. *)
Definition subslice (a : list string) (lo hi : Z) : option (list string) :=
  if bool_decide (0 ≤ lo ∧ lo ≤ hi ∧ hi ≤ Z.of_nat (length a))
  then Some (take (Z.to_nat (hi - lo)) (drop (Z.to_nat lo) a))
  else None.

(** The fields of [Server] that [newNSEC] reads. *)
Record Zone := mkZone { domain : string; domainLabels : Z }.

(** The NSEC record [newNSEC] builds from the neighbours found. *)
Definition nsec_record (z : Zone) (prev next : string) : RR :=
  {| Hdr := {| Name := prev +:+ domain z +:+ "."; Rrtype := TypeNSEC;
               Class := ClassINET; Ttl := 60; Rdlength := 0 |};
     Data := NSEC (next +:+ domain z +:+ ".")
               (if decide (prev = ""%string)
                then [TypeSOA; TypeNS; TypeRRSIG; TypeDNSKEY; TypeNSEC]
                else [TypeA; TypeAAAA; TypeSRV; TypeNSEC]) |}.

Section NewNSEC.

(** [dns.SplitDomainName] of the DNS library: the labels of a name. *)
Variable SplitDomainName : string → list string.

(** [func (s *Server) newNSEC(qname string) *dns.NSEC] on the denial index
    [d]. *)
Definition newNSEC (z : Zone) (d : list (list Denial.denialref))
    (qname : string) : option RR :=
  let qlabels := SplitDomainName qname in
  let ls := Z.of_nat (length qlabels) - domainLabels z in
  let ls4 := if ls - 4 <? 0 then 0 else ls - 4 in
  key ← subslice qlabels ls4 ls;
  '(prev, next) ← Denial.search (Join key ".") (Z.of_nat (length key)) d;
  Some (nsec_record z prev next).

(** [m.Ns = append(m.Ns, s.newNSEC(m.Question[0].Name))]; [question] holds
    the names of [m.Question]. *)
Definition add_nsec (z : Zone) (d : list (list Denial.denialref))
    (question : list string) (m : Signer.Msg) : option Signer.Msg :=
  q ← head question;
  n ← newNSEC z d q;
  Some {| Signer.Rcode := Signer.Rcode m; Signer.Answer := Signer.Answer m;
          Signer.Ns := Signer.Ns m ++ [n]; Signer.Extra := Signer.Extra m;
          Signer.Truncated := Signer.Truncated m |}.

(** [func (s *Server) nsec(m *dns.Msg)] *)
Definition nsec (z : Zone) (d : list (list Denial.denialref))
    (question : list string) (m : Signer.Msg) : option Signer.Msg :=
  m ← (if decide (Signer.Rcode m = RcodeNameError)
       then add_nsec z d question m else Some m);
  if decide (Signer.Rcode m = RcodeSuccess) then
    match Signer.Ns m with
    | [r] =>
        match Data r with
        | SOA _ _ _ _ _ _ _ => add_nsec z d question m
        | _ => Some m
        end
    | _ => Some m
    end
  else Some m.

End NewNSEC.

End Nsec.

(** ** Callers of [Do] one after another *)

Module SingleFlightSeq.
Import SingleFlight.

Section Sequential.

Context {K : Type} `{Countable K} {R : Type}.
Variable fn : nat → R.

(** The schedule in which the callers run one after another, each to its
    return. *)
Definition one_by_one (n : nat) : list nat :=
  t ← seq 0 n; [t; t; t; t].

(** The state after the first [j] of [n] callers ran one after another. *)
Definition after_callers (n j : nat) : @state K _ _ R :=
  {| heap := (λ t, mkCall (Some (fn t)) true 0) <$> seq 0 j;
     g_m := ∅;
     threads := ((λ t, Returned t (Some (fn t)) false) <$> seq 0 j)
                  ++ replicate (n - j) Start;
     invoked := seq 0 j |}.

End Sequential.

End SingleFlightSeq.

(** ** Callers of [Do] with any keys *)

Module SingleFlightSafe.
Import SingleFlight.

Section Safe.

Context {K : Type} `{Countable K} {R : Type}.
Variable key : nat → K.
Variable fn : nat → R.

(** The call a caller holds in its local [c]. *)
Definition call_of (p : @pc R) : option nat :=
  match p with
  | Start => None
  | Running c | Cleanup c | Leaving c | Waiting c | Returned c _ _ => Some c
  end.

(** The caller registered the call and has not deregistered it. *)
Definition executes (p : @pc R) (c : nat) : Prop :=
  p = Running c ∨ p = Cleanup c.

(** [fn] returned to the caller, which has not returned itself. *)
Definition called (p : @pc R) (c : nat) : Prop :=
  p = Cleanup c ∨ p = Leaving c.

(** The invariant of every reachable state, whatever the keys. *)
Definition safe (s : @state K _ _ R) : Prop :=
  (∀ t p c, threads s !! t = Some p → call_of p = Some c →
     (c < length (heap s))%nat) ∧
  (∀ t t' p p' c, threads s !! t = Some p → threads s !! t' = Some p' →
     call_of p = Some c → call_of p' = Some c → key t = key t') ∧
  (∀ k c, g_m s !! k = Some c →
     ∃ e p, threads s !! e = Some p ∧ executes p c ∧ key e = k) ∧
  (∀ t c, threads s !! t = Some (Running c) →
     ∃ cl, heap s !! c = Some cl ∧ wg_done cl = false) ∧
  (∀ t t' p c, threads s !! t = Some (Running c) →
     threads s !! t' = Some p → executes p c ∨ called p c → t = t') ∧
  (∀ t p c, threads s !! t = Some p → called p c →
     ∃ cl, heap s !! c = Some cl ∧ wg_done cl = true ∧
           res cl = Some (fn t) ∧ t ∈ invoked s) ∧
  (∀ c cl, heap s !! c = Some cl → wg_done cl = true →
     ∃ e p, res cl = Some (fn e) ∧ e ∈ invoked s ∧
            threads s !! e = Some p ∧ call_of p = Some c) ∧
  (∀ t c r sh, threads s !! t = Some (Returned c r sh) →
     ∃ e, r = Some (fn e) ∧ e ∈ invoked s ∧ key e = key t ∧
          (sh = false → e = t)).

End Safe.

End SingleFlightSafe.

(** * Properties *)

(** ** Integers *)

Section Integers.

Lemma wrap_int_id z : - 2 ^ 63 ≤ z ≤ maxInt → wrap_int z = z.
Proof.
  unfold wrap_int, maxInt. intros Hz.
  rewrite Z.mod_small; lia.
Qed.

End Integers.

(** ** The RRset grouper *)

Section Grouper.

Lemma made_make r : made (Slice.make_1_3 r).
Proof. split; [done|]. by exists r, None, None. Qed.

Lemma made_append s r :
  made s → made (Slice.append s r).2 ∧
           Slice.elems (Slice.append s r).2 = Slice.elems s.
Proof.
  intros [Hlen (r0 & x & y & Harr)]. destruct s as [a n]; simpl in *; subst.
  unfold Slice.append, Slice.cap; simpl. split; [|done].
  split; [done|]. by exists r0, (Some r), y.
Qed.

Lemma rrSets_step_made m r :
  map_Forall (λ _, made) m → map_Forall (λ _, made) (rrSets_step m r).
Proof.
  intros Hm. unfold rrSets_step.
  destruct (m !! rrset_of r) as [s|] eqn:Hs.
  - destruct (Slice.append s r) as [s1 s2] eqn:Happ.
    apply map_Forall_insert_2; [|done].
    pose proof (made_append s r (Hm _ _ Hs)) as [Hmade _].
    by rewrite Happ in Hmade.
  - apply map_Forall_insert_2; [apply made_make|done].
Qed.

(** One step leaves the group of every key that has one as it is, and
    opens a group with the record alone for a new key. *)
Lemma rrSets_step_lookup m r k :
  map_Forall (λ _, made) m →
  Slice.elems <$> (rrSets_step m r !! k) =
    match m !! k with
    | Some s => Some (Slice.elems s)
    | None => if decide (rrset_of r = k) then Some [r] else None
    end.
Proof.
  intros Hm. unfold rrSets_step.
  destruct (m !! rrset_of r) as [s|] eqn:Hs.
  - destruct (Slice.append s r) as [s1 s2] eqn:Happ.
    destruct (decide (rrset_of r = k)) as [<-|Hne].
    + rewrite lookup_insert_eq, Hs; simpl.
      pose proof (made_append s r (Hm _ _ Hs)) as [_ He].
      rewrite Happ in He. simpl in He. by rewrite He.
    + rewrite lookup_insert_ne by done.
      destruct (m !! k); [done|]. done.
  - destruct (decide (rrset_of r = k)) as [<-|Hne].
    + by rewrite lookup_insert_eq, Hs.
    + rewrite lookup_insert_ne by done. by destruct (m !! k).
Qed.

Lemma rrSets_loop_lookup rrs m k :
  map_Forall (λ _, made) m →
  Slice.elems <$> (rrSets_loop rrs m !! k) =
    match m !! k with
    | Some s => Some (Slice.elems s)
    | None => (λ r, [r]) <$> head (records_of k rrs)
    end.
Proof.
  revert m. induction rrs as [|r rrs IH]; intros m Hm; simpl.
  - by destruct (m !! k).
  - unfold rrSets_loop in *; simpl. rewrite IH by by apply rrSets_step_made.
    pose proof (rrSets_step_lookup m r k Hm) as Hstep.
    unfold records_of. rewrite filter_cons.
    destruct (rrSets_step m r !! k) as [s'|] eqn:Hs'; simpl in *.
    + destruct (m !! k); [done|]. by destruct (decide (rrset_of r = k)).
    + destruct (m !! k); [done|]. by destruct (decide (rrset_of r = k)).
Qed.

Lemma rrSets_loop_size rrs m :
  (0 < size m)%nat → (0 < size (rrSets_loop rrs m))%nat.
Proof.
  revert m. induction rrs as [|r rrs IH]; intros m Hm; [done|].
  unfold rrSets_loop in *; simpl. apply IH. unfold rrSets_step.
  assert (∀ s, 0 < size (<[rrset_of r := s]> m))%nat as Hins.
  { intros s. destruct (m !! rrset_of r) eqn:Hl.
    - rewrite map_size_insert_Some; [done|eauto].
    - rewrite map_size_insert_None by done. lia. }
  destruct (m !! rrset_of r) as [s|]; [|done].
  by destruct (Slice.append s r).
Qed.

(** The group of a key is made of the first record of that key alone. *)
Lemma group_first rrs k :
  group rrs k = (λ r, [r]) <$> head (records_of k rrs).
Proof.
  unfold group, rrSets. case_bool_decide as Hsz.
  - rewrite rrSets_loop_lookup by apply map_Forall_empty.
    by rewrite lookup_empty.
  - destruct rrs as [|r rrs]; [done|]. exfalso. apply Hsz.
    unfold rrSets_loop; simpl. apply rrSets_loop_size.
    unfold rrSets_step. rewrite lookup_empty.
    rewrite map_size_insert_None by apply lookup_empty. lia.
Qed.

End Grouper.

(** C1: the grouper has to put two records with the same (name, class,
    type) into one group that holds both.  [rrSets] appends the second
    record to a local copy of the slice header, so the group it returns
    holds the first record only, although two records have the key. *)
Theorem rrSets_same_key_keeps_first_only (r1 r2 : RR) :
  rrset_of r1 = rrset_of r2 →
  group [r1; r2] (rrset_of r1) = Some [r1] ∧
  records_of (rrset_of r1) [r1; r2] = [r1; r2].
Proof.
  intros Heq.
  assert (records_of (rrset_of r1) [r1; r2] = [r1; r2]) as Hrec.
  { unfold records_of. rewrite filter_cons_True by done.
    rewrite filter_cons_True by done. done. }
  split; [|done]. by rewrite group_first, Hrec.
Qed.

Lemma rrSets_same_key_keeps_first_only_witness :
  let r1 := mkRR (mkHeader "web.prod." TypeSRV ClassINET 60 0)
                 (SRV 10 20 8080 "a.example.") in
  let r2 := mkRR (mkHeader "web.prod." TypeSRV ClassINET 60 0)
                 (SRV 10 20 8081 "b.example.") in
  group [r1; r2] (rrset_of r1) = Some [r1] ∧
  records_of (rrset_of r1) [r1; r2] = [r1; r2].
Proof.
  intros r1 r2. apply (rrSets_same_key_keeps_first_only r1 r2). reflexivity.
Defined.

(** ** The denial index *)

Module DenialProofs.
Import Denial.

Section Shifting.

Lemma shift_in l1 l2 z new :
  <[length l1 := new]> (copy_within ((l1 ++ l2) ++ [z]) (length l1 + 1) (length l1))
  = l1 ++ new :: l2.
Proof.
  unfold copy_within.
  rewrite <-(assoc_L (++)).
  rewrite drop_app_length.
  rewrite !length_app; simpl.
  replace ((length l1 + (length l2 + 1) - (length l1 + 1)) `min` (length l2 + 1))%nat
    with (length l2) by lia.
  rewrite take_app_length.
  rewrite (drop_ge (l1 ++ l2 ++ [z])) by (rewrite !length_app; simpl; lia).
  rewrite app_nil_r.
  rewrite take_app_add'  by done.
  destruct l2 as [|y l2]; simpl.
  - rewrite app_nil_r. rewrite insert_app_r_alt by lia.
    by rewrite Nat.sub_diag.
  - rewrite <-(assoc_L (++)). rewrite insert_app_r_alt by lia.
    by rewrite Nat.sub_diag.
Qed.

Lemma shift_out l1 l2 r z :
  let reg1 := l1 ++ r :: l2 in
  let reg2 := copy_within reg1 (length l1) (length l1 + 1) in
  let reg3 := <[(length reg2 - 1)%nat := z]> reg2 in
  take (length reg3 - 1)%nat reg3 = l1 ++ l2.
Proof.
  simpl. unfold copy_within.
  rewrite length_insert.
  assert (drop (length l1 + 1) (l1 ++ r :: l2) = l2) as ->.
  { rewrite drop_app_add' by done. done. }
  rewrite take_app_length.
  rewrite !length_app; simpl.
  replace ((length l1 + S (length l2) - length l1) `min` length l2)%nat with (length l2) by lia.
  rewrite firstn_all.
  rewrite length_drop, length_app; simpl.
  replace (length l1 + (length l2 + (length l1 + S (length l2) - (length l1 + length l2))) - 1)%nat
    with (length (l1 ++ l2)) by (rewrite length_app; lia).
  rewrite take_insert_ge by lia.
  rewrite (assoc_L (++)). by rewrite take_app_length.
Qed.

End Shifting.

Section StringOrder.

Lemma compare_refl (s : string) : String.compare s s = Eq.
Proof.
  pose proof (String.compare_antisym s s) as Hc.
  destruct (String.compare s s); simpl in Hc; congruence.
Qed.

Lemma ltb_irrefl (s : string) : String.ltb s s = false.
Proof. unfold String.ltb. by rewrite compare_refl. Qed.

Lemma leb_false_ltb (a b : string) :
  String.leb a b = false ↔ String.ltb b a = true.
Proof.
  unfold String.leb, String.ltb. rewrite (String.compare_antisym b a).
  destruct (String.compare a b); simpl; intuition congruence.
Qed.

Lemma ltb_leb (a b : string) : String.ltb a b = true → String.leb a b = true.
Proof.
  unfold String.leb, String.ltb. destruct (String.compare a b); congruence.
Qed.

Lemma leb_trans (a b c : string) :
  String.leb a b = true → String.leb b c = true → String.leb a c = true.
Proof.
  intros Hab Hbc. apply Is_true_true.
  change (String.le a c). transitivity b; apply Is_true_true; done.
Qed.

Lemma leb_ltb_trans (a b c : string) :
  String.leb a b = true → String.ltb b c = true → String.ltb a c = true.
Proof.
  intros Hab Hbc. apply leb_false_ltb.
  destruct (String.leb c a) eqn:Hca; [|done].
  pose proof (leb_trans _ _ _ Hca Hab) as Hcb.
  apply leb_false_ltb in Hbc. congruence.
Qed.

Lemma ltb_leb_trans (a b c : string) :
  String.ltb a b = true → String.leb b c = true → String.ltb a c = true.
Proof.
  intros Hab Hbc. apply leb_false_ltb.
  destruct (String.leb c a) eqn:Hca; [|done].
  pose proof (leb_trans _ _ _ Hbc Hca) as Hba.
  apply leb_false_ltb in Hab. congruence.
Qed.

Lemma ltb_trans (a b c : string) :
  String.ltb a b = true → String.ltb b c = true → String.ltb a c = true.
Proof. intros Hab Hbc. eapply ltb_leb_trans; [done|by apply ltb_leb]. Qed.

Lemma ltb_neq (a b : string) : String.ltb a b = true → a ≠ b.
Proof. intros Hab ->. by rewrite ltb_irrefl in Hab. Qed.

Lemma leb_neq_ltb (a b : string) :
  String.leb a b = true → a ≠ b → String.ltb a b = true.
Proof.
  unfold String.leb, String.ltb. intros Hab Hne.
  destruct (String.compare a b) eqn:Hc; try done.
  by apply String.compare_eq_iff in Hc.
Qed.

End StringOrder.

Section BinarySearch.

Variable f : nat → bool.
Variable n : nat.
Hypothesis f_mono : ∀ a b, (a ≤ b)%nat → (b < n)%nat → f a = true → f b = true.

Lemma search_loop_spec fuel i j :
  (j - i ≤ fuel)%nat → (i ≤ j)%nat → (j ≤ n)%nat →
  (∀ k, (k < i)%nat → f k = false) →
  (∀ k, (j ≤ k)%nat → (k < n)%nat → f k = true) →
  let r := search_loop fuel f i j in
  (r ≤ n)%nat ∧ (∀ k, (k < r)%nat → f k = false) ∧
  (∀ k, (r ≤ k)%nat → (k < n)%nat → f k = true).
Proof.
  revert i j. induction fuel as [|fuel IH]; intros i j Hfuel Hij Hjn Hlo Hhi;
    cbn [search_loop].
  - assert (i = j) as -> by lia. auto.
  - case_bool_decide as Hlt.
    + pose proof (Nat.div_mod_eq (i + j) 2) as Hdm.
      pose proof (Nat.mod_upper_bound (i + j) 2 ltac:(lia)) as Hmod.
      set (h := ((i + j) / 2)%nat) in *.
      assert (i ≤ h)%nat by lia. assert (h < j)%nat by lia.
      destruct (f h) eqn:Hfh; cbn [negb].
      * apply IH; try lia; [done|].
        intros k Hk Hkn. apply (f_mono h k); [lia|done|done].
      * apply IH; try lia; [|done].
        intros k Hk. destruct (f k) eqn:Hfk; [|done].
        rewrite (f_mono k h) in Hfh; [done|lia|lia|done].
    + assert (i = j) as -> by lia. auto.
Qed.

Lemma sort_Search_spec :
  let r := sort_Search n f in
  (r ≤ n)%nat ∧ (∀ k, (k < r)%nat → f k = false) ∧
  (∀ k, (r ≤ k)%nat → (k < n)%nat → f k = true).
Proof. apply search_loop_spec; [lia|lia|lia|lia|lia]. Qed.

End BinarySearch.

Section Registry.

Lemma sorted_NoDup (l : list string) : StronglySorted str_lt l → NoDup l.
Proof.
  induction 1 as [|a l Hs IH Hall]; constructor; [|done].
  intros Hin. rewrite Forall_forall in Hall.
  specialize (Hall a). unfold str_lt in Hall. rewrite ltb_irrefl in Hall.
  by specialize (Hall Hin).
Qed.

Lemma sorted_lookup (l : list string) a b x y :
  StronglySorted str_lt l → (a < b)%nat →
  l !! a = Some x → l !! b = Some y → str_lt x y.
Proof.
  intros Hs Hab Ha Hb. rewrite <-(take_drop b l) in Hs.
  eapply StronglySorted_app_1_elem_of; [done| |].
  - apply list_elem_of_lookup. exists a. by rewrite lookup_take_lt.
  - apply list_elem_of_lookup. exists 0%nat. by rewrite lookup_drop, Nat.add_0_r.
Qed.

Lemma name_ge_Some (reg : list denialref) x k r :
  reg !! k = Some r → name_ge reg x k = String.leb x (name r).
Proof. intros Hk. unfold name_ge. by rewrite Hk. Qed.

Variable x : string.
Variable reg : list denialref.
Hypothesis Hsorted : StronglySorted str_lt (name <$> reg).

Lemma name_ge_mono a b :
  (a ≤ b)%nat → (b < length reg)%nat →
  name_ge reg x a = true → name_ge reg x b = true.
Proof.
  intros Hab Hb. unfold name_ge.
  destruct (reg !! a) as [ra|] eqn:Ha; [|done].
  destruct (lookup_lt_is_Some_2 reg b Hb) as [rb Hrb]. rewrite Hrb.
  intros Hge. destruct (decide (a = b)) as [->|Hne]; [congruence|].
  assert (str_lt (name ra) (name rb)) as Hlt.
  { eapply (sorted_lookup _ a b); [done|lia| |].
    - by rewrite list_lookup_fmap, Ha.
    - by rewrite list_lookup_fmap, Hrb. }
  apply ltb_leb. by eapply leb_ltb_trans.
Qed.

(** Where the binary search lands: the names before are smaller than [x],
    the names from there on are not. *)
Lemma search_position :
  let i := sort_Search (length reg) (name_ge reg x) in
  (i ≤ length reg)%nat ∧
  Forall (λ r, String.ltb (name r) x = true) (take i reg) ∧
  Forall (λ r, String.leb x (name r) = true) (drop i reg).
Proof.
  destruct (sort_Search_spec (name_ge reg x) (length reg) name_ge_mono)
    as (Hle & Hlo & Hhi).
  split; [done|]. split.
  - apply Forall_lookup. intros k r Hk.
    apply lookup_take_Some in Hk as [Hk Hlt].
    specialize (Hlo k Hlt). rewrite (name_ge_Some _ _ _ _ Hk) in Hlo.
    by apply leb_false_ltb.
  - apply Forall_lookup. intros k r Hk. rewrite lookup_drop in Hk.
    pose proof (lookup_lt_Some _ _ _ Hk) as Hlt.
    specialize (Hhi _ (Nat.le_add_r _ k) Hlt).
    by rewrite (name_ge_Some _ _ _ _ Hk) in Hhi.
Qed.

End Registry.

Section Ops.

Variable x : string.
Variable reg : list denialref.
Hypothesis Hsorted : StronglySorted str_lt (name <$> reg).

Lemma search_finds j r :
  reg !! j = Some r → name r = x →
  sort_Search (length reg) (name_ge reg x) = j.
Proof.
  intros Hj Hname.
  destruct (search_position x reg Hsorted) as (Hle & Hlo & Hhi).
  set (i := sort_Search (length reg) (name_ge reg x)) in *.
  pose proof (lookup_lt_Some _ _ _ Hj) as Hjlen.
  destruct (decide (j < i)%nat) as [Hlt|Hge].
  - rewrite Forall_lookup in Hlo. specialize (Hlo j r).
    rewrite lookup_take_lt in Hlo by done. specialize (Hlo Hj).
    rewrite Hname, ltb_irrefl in Hlo. done.
  - destruct (decide (i = j)) as [|Hne]; [done|]. exfalso.
    destruct (lookup_lt_is_Some_2 reg i ltac:(lia)) as [ri Hri].
    rewrite Forall_lookup in Hhi. specialize (Hhi 0%nat ri).
    rewrite lookup_drop, Nat.add_0_r in Hhi. specialize (Hhi Hri).
    assert (str_lt (name ri) (name r)) as Hlt.
    { eapply (sorted_lookup _ i j); [done|lia| |].
      - by rewrite list_lookup_fmap, Hri.
      - by rewrite list_lookup_fmap, Hj. }
    unfold str_lt in Hlt. rewrite Hname in Hlt.
    apply leb_false_ltb in Hlt. congruence.
Qed.

Lemma insert_reg_present j r :
  reg !! j = Some r → name r = x →
  insert_reg x reg = <[j := mkRef x (wrap_int (reference r + 1))]> reg.
Proof.
  intros Hj Hname. unfold insert_reg.
  rewrite (search_finds j r Hj Hname), Hj.
  rewrite decide_True by done. by rewrite Hname.
Qed.

Lemma insert_reg_absent :
  x ∉ name <$> reg →
  let i := sort_Search (length reg) (name_ge reg x) in
  insert_reg x reg = take i reg ++ mkRef x 1 :: drop i reg.
Proof.
  intros Hnot i.
  destruct (search_position x reg Hsorted) as (Hle & _ & _). fold i in Hle.
  assert (insert_reg x reg =
          <[i := mkRef x 1]> (copy_within (reg ++ [mkRef "" 0]) (i + 1) i)) as ->.
  { unfold insert_reg. fold i. destruct (reg !! i) as [r|] eqn:Hr; [|done].
    rewrite decide_False; [done|]. intros Hname. apply Hnot.
    apply list_elem_of_fmap. exists r. split; [done|].
    by eapply list_elem_of_lookup_2. }
  pose proof (shift_in (take i reg) (drop i reg) (mkRef "" 0) (mkRef x 1)) as Hs.
  rewrite take_drop, length_take, Nat.min_l in Hs by done. done.
Qed.

Lemma remove_reg_absent :
  x ∉ name <$> reg → remove_reg x reg = reg.
Proof.
  intros Hnot. unfold remove_reg.
  destruct (reg !! _) as [r|] eqn:Hr; [|done].
  rewrite decide_False; [done|]. intros Hname. apply Hnot.
  apply list_elem_of_fmap. exists r. split; [done|].
  by eapply list_elem_of_lookup_2.
Qed.

Lemma remove_reg_present j r :
  reg !! j = Some r → name r = x → 0 < reference r ≤ maxInt →
  remove_reg x reg =
    if decide (reference r = 1) then take j reg ++ drop (S j) reg
    else <[j := mkRef x (reference r - 1)]> reg.
Proof.
  intros Hj Hname Hc. unfold remove_reg.
  rewrite (search_finds j r Hj Hname), Hj.
  rewrite decide_True by done. cbn [reference].
  rewrite wrap_int_id by (unfold maxInt in *; lia).
  destruct (decide (reference r = 1)) as [H1|H1].
  - rewrite decide_True by lia.
    pose proof (lookup_lt_Some _ _ _ Hj) as Hlt.
    pose proof (shift_out (take j reg) (drop (S j) reg)
                  (mkRef (name r) (reference r - 1)) (mkRef "" 0)) as Hs.
    cbn zeta in Hs. rewrite length_take, Nat.min_l in Hs by lia.
    assert (<[j := mkRef (name r) (reference r - 1)]> reg =
            take j reg ++ mkRef (name r) (reference r - 1) :: drop (S j) reg) as ->.
    { rewrite <-(take_drop_middle reg j r Hj) at 1.
      rewrite insert_app_r_alt by (rewrite length_take; lia).
      rewrite length_take, Nat.min_l by lia. by rewrite Nat.sub_diag. }
    done.
  - rewrite decide_False by lia. by rewrite Hname.
Qed.

End Ops.

Section Invariant.

Lemma inv_intro reg :
  StronglySorted str_lt (name <$> reg) →
  Forall (λ r, 0 < reference r ≤ maxInt) reg → inv reg.
Proof. intros Hs Hc. split; [done|]. split; [by apply sorted_NoDup|done]. Qed.

Lemma names_insert_same (reg : list denialref) j r c :
  reg !! j = Some r →
  name <$> <[j := mkRef (name r) c]> reg = name <$> reg.
Proof.
  intros Hj. rewrite list_fmap_insert. apply list_insert_id.
  by rewrite list_lookup_fmap, Hj.
Qed.

Lemma inv_insert x reg :
  inv reg →
  (∀ r, r ∈ reg → name r = x → reference r < maxInt) →
  inv (insert_reg x reg).
Proof.
  intros (Hs & _ & Hc) Hmax.
  destruct (decide (x ∈ name <$> reg)) as [Hin|Hnot].
  - apply list_elem_of_fmap in Hin as (r & -> & Hr).
    apply list_elem_of_lookup in Hr as [j Hj].
    rewrite (insert_reg_present _ reg Hs j r Hj eq_refl).
    apply inv_intro.
    + by rewrite names_insert_same.
    + apply Forall_insert; [done|]. cbn [reference].
      rewrite Forall_lookup in Hc. specialize (Hc j r Hj).
      assert (reference r < maxInt)
        by (apply Hmax; [by eapply list_elem_of_lookup_2|done]).
      rewrite wrap_int_id by (unfold maxInt in *; lia). lia.
  - rewrite (insert_reg_absent x reg Hs Hnot).
    destruct (search_position x reg Hs) as (Hle & Hlo & Hhi).
    set (i := sort_Search (length reg) (name_ge reg x)) in *.
    apply inv_intro.
    + rewrite fmap_app, fmap_cons. cbn [name].
      rewrite <-(take_drop i reg), fmap_app in Hs.
      apply StronglySorted_app in Hs as (Hcross & Hs1 & Hs2).
      assert (Forall (str_lt x) (name <$> drop i reg)) as Hx2.
      { apply Forall_fmap, Forall_forall. intros r Hr.
        rewrite Forall_forall in Hhi. cbn. apply leb_neq_ltb; [by apply Hhi|].
        intros ->. apply Hnot. apply list_elem_of_fmap. exists r. split; [done|].
        rewrite <-(take_drop i reg). apply elem_of_app. by right. }
      apply StronglySorted_app. split_and!; [|done|].
      * intros a b Ha Hb. apply elem_of_cons in Hb as [->|Hb].
        -- apply list_elem_of_fmap in Ha as (r & -> & Hr).
           rewrite Forall_forall in Hlo. by apply Hlo.
        -- auto.
      * apply StronglySorted_cons. done.
    + apply Forall_app. split; [by apply Forall_take|].
      apply Forall_cons. split; [|by apply Forall_drop].
      cbn. unfold maxInt. lia.
Qed.



End Invariant.

End DenialProofs.

Section DepthLemmas.
Import Denial DenialProofs.

Lemma at_depth_insert d l reg reg' :
  at_depth d l = Some reg →
  at_depth (<[Z.to_nat (l - 1) := reg']> d) l = Some reg'.
Proof.
  unfold at_depth. case_bool_decide; [|done]. intros Hl.
  apply list_lookup_insert_eq. by eapply lookup_lt_Some.
Qed.

End DepthLemmas.



(** C8 as stated asks that every insert keeps the counts positive.  The
    registry with the one name [a], counted [2^63 - 1] times, meets the
    invariant; insert of [a] wraps the count around to [- 2^63], which is
    not positive. *)
Lemma denial_insert_overflows_count :
  let reg := [Denial.mkRef "a" maxInt] in
  let d := [reg; []; []; []] in
  Denial.inv reg ∧
  Denial.insert "a" 1 d = Some [[Denial.mkRef "a" (- 2 ^ 63)]; []; []; []] ∧
  ¬ Forall (λ r, 0 < Denial.reference r) [Denial.mkRef "a" (- 2 ^ 63)] ∧
  ¬ Denial.inv [Denial.mkRef "a" (- 2 ^ 63)].
Proof.
  intros reg d. split_and!.
  - split_and!.
    + repeat constructor.
    + apply DenialProofs.sorted_NoDup. repeat constructor.
    + repeat constructor; vm_compute; congruence.
  - vm_compute. reflexivity.
  - intros Hc. apply Forall_cons in Hc as [Hc _]. vm_compute in Hc. done.
  - intros (_ & _ & Hc). apply Forall_cons in Hc as [[Hc _] _].
    vm_compute in Hc. done.
Qed.

Section SearchLemmas.
Import Denial DenialProofs.

Lemma search_position_low x reg :
  StronglySorted str_lt (name <$> reg) →
  Forall (λ r, String.leb x (name r) = true) reg →
  sort_Search (length reg) (name_ge reg x) = 0%nat.
Proof.
  intros Hs Hall.
  destruct (search_position x reg Hs) as (Hle & Hlo & _).
  destruct (sort_Search (length reg) (name_ge reg x)) as [|i]; [done|].
  exfalso. destruct (lookup_lt_is_Some_2 reg 0 ltac:(lia)) as [r Hr].
  rewrite Forall_lookup in Hlo. specialize (Hlo 0%nat r).
  rewrite lookup_take_lt in Hlo by lia. specialize (Hlo Hr).
  rewrite Forall_lookup in Hall. specialize (Hall 0%nat r Hr).
  apply leb_false_ltb in Hlo. congruence.
Qed.

Lemma search_position_high x reg :
  StronglySorted str_lt (name <$> reg) →
  Forall (λ r, String.ltb (name r) x = true) reg →
  sort_Search (length reg) (name_ge reg x) = length reg.
Proof.
  intros Hs Hall.
  destruct (search_position x reg Hs) as (Hle & _ & Hhi).
  set (i := sort_Search (length reg) (name_ge reg x)) in *.
  destruct (decide (i = length reg)) as [|Hne]; [done|]. exfalso.
  destruct (lookup_lt_is_Some_2 reg i ltac:(lia)) as [r Hr].
  rewrite Forall_lookup in Hhi. specialize (Hhi 0%nat r).
  rewrite lookup_drop, Nat.add_0_r in Hhi. specialize (Hhi Hr).
  rewrite Forall_lookup in Hall. specialize (Hall i r Hr).
  apply leb_false_ltb in Hall. congruence.
Qed.

Lemma index_length reg : index reg (Z.of_nat (length reg)) = None.
Proof.
  unfold index. case_bool_decide; [|done].
  rewrite Nat2Z.id. by apply lookup_ge_None.
Qed.

End SearchLemmas.

(** C2: [search] has to return the names before and after the insertion
    point, so for a registry holding "a" and "c" the search for "b" has to
    give ("a", "c"), and a search below the first entry an empty
    predecessor.  The code takes the empty predecessor at index 1 instead
    of index 0: the search for "b" gives ("", "c"), and the search for "0",
    below "a", indexes the registry at -1 and panics. *)
Theorem search_between_a_and_c :
  let d := [[Denial.mkRef "a" 1; Denial.mkRef "c" 1]; []; []; []] in
  Denial.insert "a" 1 Denial.newDenialList ≫= Denial.insert "c" 1 = Some d ∧
  Denial.search "b" 1 d = Some (""%string, "c"%string) ∧
  Denial.search "0" 1 d = None.
Proof. vm_compute. done. Qed.

(** C10: [search] has to stay within the registry for every registry and
    every name.  It does not: on a sorted registry, a name that is not
    above the first entry (also any name on the empty registry) or that is
    above every entry makes [search] index the registry out of range, and
    the call panics. *)
Theorem search_out_of_range (x : string) (reg : list Denial.denialref) :
  StronglySorted Denial.str_lt (Denial.name <$> reg) →
  Forall (λ r, String.leb x (Denial.name r) = true) reg ∨
  Forall (λ r, String.ltb (Denial.name r) x = true) reg →
  Denial.search_reg x reg = None.
Proof.
  intros Hs [Hlow|Hhigh]; unfold Denial.search_reg.
  - rewrite (search_position_low x reg Hs Hlow). done.
  - rewrite (search_position_high x reg Hs Hhigh).
    case_bool_decide; rewrite index_length; [done|].
    by destruct (Denial.index reg _).
Qed.

Lemma search_out_of_range_witness :
  Denial.search_reg "b" [] = None.
Proof.
  apply (search_out_of_range "b" []).
  - constructor.
  - left. constructor.
Defined.

Section Service.
Import Denial DenialProofs.

Lemma insert_reg_nil x : insert_reg x [] = [mkRef x 1].
Proof. reflexivity. Qed.

Lemma insert_reg_single x c :
  0 < c < maxInt → insert_reg x [mkRef x c] = [mkRef x (c + 1)].
Proof.
  intros Hc.
  rewrite (insert_reg_present x [mkRef x c] ltac:(repeat constructor) 0
             (mkRef x c) eq_refl eq_refl).
  cbn. rewrite wrap_int_id by (unfold maxInt in *; lia). done.
Qed.

Lemma insert_at x l d reg :
  at_depth d l = Some reg →
  insert x l d = Some (<[Z.to_nat (l - 1) := insert_reg x reg]> d).
Proof. intros Hd. unfold insert. by rewrite Hd. Qed.

Lemma count_of_single x l d c :
  at_depth d l = Some [mkRef x c] → count_of x l d = Some c.
Proof.
  intros Hd. unfold count_of. rewrite Hd. cbn [mbind option_bind].
  rewrite filter_cons_True by done. done.
Qed.

End Service.

(** C3: deregistering a service has to count its four names down, so two
    registrations and one deregistration leave count 1.
    [removeServiceNSEC] calls [insert], not [remove]: starting from the
    empty index, two registrations give count 2 at every depth and the
    deregistration that follows gives count 3. *)
Theorem deregistration_counts_up (s : msg.Service) :
  let n4 := (msg.Region s +:+ "." +:+ msg.Version s +:+ "." +:+ msg.Name s
               +:+ "." +:+ msg.Environment s)%string in
  let n3 := (msg.Version s +:+ "." +:+ msg.Name s +:+ "."
               +:+ msg.Environment s)%string in
  let n2 := (msg.Name s +:+ "." +:+ msg.Environment s)%string in
  let n1 := msg.Environment s in
  let registered c :=
    [[Denial.mkRef n1 c]; [Denial.mkRef n2 c];
     [Denial.mkRef n3 c]; [Denial.mkRef n4 c]] in
  Denial.addServiceNSEC s Denial.newDenialList ≫= Denial.addServiceNSEC s
    = Some (registered 2) ∧
  Denial.removeServiceNSEC s (registered 2) = Some (registered 3) ∧
  Denial.count_of n1 1 (registered 3) = Some 3 ∧
  Denial.count_of n2 2 (registered 3) = Some 3 ∧
  Denial.count_of n3 3 (registered 3) = Some 3 ∧
  Denial.count_of n4 4 (registered 3) = Some 3.
Proof.
  intros n4 n3 n2 n1 registered.
  assert (∀ c, 0 < c < maxInt →
            Denial.addServiceNSEC s (registered c) = Some (registered (c + 1)))
    as Hadd.
  { intros c Hc. unfold Denial.addServiceNSEC, registered.
    fold n4 n3 n2 n1.
    do 4 (erewrite insert_at by reflexivity;
          rewrite insert_reg_single by done;
          cbn -[Denial.insert]).
    done. }
  split_and!.
  - assert (Denial.addServiceNSEC s Denial.newDenialList = Some (registered 1))
      as -> by reflexivity.
    cbn [mbind option_bind]. apply Hadd. unfold maxInt. lia.
  - apply (Hadd 2). unfold maxInt. lia.
  - by apply count_of_single.
  - by apply count_of_single.
  - by apply count_of_single.
  - by apply count_of_single.
Qed.

(** ** The fingerprint and the signature cache *)

Section Fingerprint.

Lemma key_with_ttl ttl rrs :
  SigCache.key (with_ttl ttl <$> rrs) = SigCache.key rrs.
Proof.
  unfold SigCache.key. destruct rrs as [|r0 rrs]; [done|].
  cbn [fmap list_fmap head mbind option_bind]. f_equal. f_equal.
  cbn [with_ttl Hdr Name Rrtype].
  generalize (bytes_of_string (Name (Hdr r0)) ++ packUint16 (Rrtype (Hdr r0))).
  change (with_ttl ttl r0 :: (with_ttl ttl <$> rrs)) with (with_ttl ttl <$> (r0 :: rrs)).
  generalize (r0 :: rrs). clear. intros l. induction l as [|r l IH]; intros i; [done|].
  cbn. apply IH.
Qed.

End Fingerprint.

(** C5: two RRsets that differ in relevant rdata have to get different
    fingerprints, and the port of a service record is relevant.  [key]
    writes the weight twice and the port never, so two service records
    that differ in the port alone get the same fingerprint. *)
Theorem fingerprint_leaves_out_port (h : RR_Header) (p w port1 port2 : Z)
    (target : string) :
  SigCache.key [mkRR h (SRV p w port1 target)] =
  SigCache.key [mkRR h (SRV p w port2 target)].
Proof. reflexivity. Qed.

(** C9: the store of the signature cache inserts only when the
    fingerprint is absent: with an entry for the fingerprint, the cache
    after the store is the cache before it, and the entry is the one that
    was there. *)
Theorem store_keeps_existing_entry (c : gmap (list Z) RRSIG) (k : list Z)
    (s s' : RRSIG) :
  SigCache.search k c = Some s →
  SigCache.insert k s' c = c ∧
  SigCache.search k (SigCache.insert k s' c) = Some s.
Proof.
  unfold SigCache.search, SigCache.insert. intros Hk. by rewrite Hk.
Qed.

Lemma store_keeps_existing_entry_witness :
  let s := mkRRSIG (mkHeader "web.prod." TypeRRSIG ClassINET 60 0)
             (mkSigData TypeSRV 5 2 60 1400604800 1399992800 7 "prod." "c2ln") in
  let s' := mkRRSIG (mkHeader "web.prod." TypeRRSIG ClassINET 60 0)
             (mkSigData TypeSRV 5 2 60 1400704800 1400092800 7 "prod." "b3Ro") in
  let c : gmap (list Z) RRSIG := {[ [1; 2] := s ]} in
  SigCache.insert [1; 2] s' c = c ∧
  SigCache.search [1; 2] (SigCache.insert [1; 2] s' c) = Some s.
Proof.
  intros s s' c. apply (store_keeps_existing_entry c [1; 2] s s').
  reflexivity.
Defined.

(** ** The signer *)

Section SignSet.

Variable PrivateKey : Type.
Variable Sign : PrivateKey → RRSIG → list RR → RRSIG * option string.
Variable ValidityPeriod : RRSIG → Z → bool.
Variable srv : Signer.Server PrivateKey.

(** A cached signature that passes the check is appended, the cache stays
    as it is and nothing is signed. *)
Lemma sign_set_cached now r k sig c section :
  SigCache.key r = Some k → c !! k = Some sig →
  ValidityPeriod sig (now - 86400) = true →
  Signer.sign_set PrivateKey Sign ValidityPeriod srv now r (c, section) =
    Some (c, section ++ [rr_of_sig sig]).
Proof.
  intros Hk Hc Hv. unfold Signer.sign_set, Signer.sign_set_with. rewrite Hk. cbn [mbind option_bind fst snd].
  unfold SigCache.search. rewrite Hc.
  unfold Signer.check_time. replace (24 * 3600) with 86400 by done.
  by rewrite Hv.
Qed.

(** A cached signature that fails the check is evicted and the set is
    signed again. *)
Lemma sign_set_stale now r k sig c section :
  SigCache.key r = Some k → c !! k = Some sig →
  ValidityPeriod sig (now - 86400) = false →
  Signer.sign_set PrivateKey Sign ValidityPeriod srv now r (c, section) =
    Signer.sign_fresh PrivateKey Sign srv now k r (delete k c) section.
Proof.
  intros Hk Hc Hv. unfold Signer.sign_set, Signer.sign_set_with. rewrite Hk. cbn [mbind option_bind fst snd].
  unfold SigCache.search. rewrite Hc.
  unfold Signer.check_time. replace (24 * 3600) with 86400 by done.
  by rewrite Hv.
Qed.

(** Alone, [Do] runs [fn] and reports the result as not shared. *)
Lemma Do_alone_runs {K} `{Countable K} {R} (key : K) (fn : unit → R) :
  SingleFlight.Do_alone key fn = Some (Some (fn tt), false).
Proof.
  unfold SingleFlight.Do_alone, SingleFlight.run, SingleFlight.init.
  cbn [foldl replicate].
  set (k := λ _ : nat, key). set (f := λ _ : nat, fn tt).
  assert (SingleFlight.step k f 0
            (SingleFlight.mkState [] ∅ [SingleFlight.Start] []) =
          SingleFlight.mkState [SingleFlight.mkCall None false 0]
            (<[key := 0%nat]> ∅) [SingleFlight.Running 0] []) as ->.
  { unfold SingleFlight.step; cbn. by rewrite lookup_empty. }
  assert (SingleFlight.step k f 0
            (SingleFlight.mkState [SingleFlight.mkCall None false 0]
               (<[key := 0%nat]> ∅) [SingleFlight.Running 0] []) =
          SingleFlight.mkState [SingleFlight.mkCall (Some (fn tt)) true 0]
            (<[key := 0%nat]> ∅) [SingleFlight.Cleanup 0] [0%nat]) as ->
    by done.
  done.
Qed.

(** Without an entry the set is signed and, when signing succeeds, the
    signature is stored and appended. *)
Lemma sign_fresh_signs now r k c section sig :
  Sign (Signer.Privkey _ srv)
       (Signer.newRRSIG _ srv (Signer.incep_of now) (Signer.expir_of now)) r
    = (sig, None) →
  Signer.sign_fresh PrivateKey Sign srv now k r c section =
    Some (SigCache.insert k sig c, section ++ [rr_of_sig sig]).
Proof.
  intros Hs. unfold Signer.sign_fresh, Signer.sign_fresh_with. rewrite Do_alone_runs.
  cbn [mbind option_bind]. by rewrite Hs.
Qed.

End SignSet.

Section Validity.

(** A signature as [sign] makes it at [now0] is rejected by the check of
    [sign] during the 22 hours that follow. *)
Lemma fresh_signature_fails_check now0 now hdr d :
  7200 ≤ now0 → now0 ≤ now → now < now0 + 22 * 3600 → now < 2 ^ 31 →
  Inception d = Signer.incep_of now0 →
  Expiration d = Signer.expir_of now0 →
  Signer.dns_ValidityPeriod (mkRRSIG hdr d) (Signer.check_time now) = false.
Proof.
  intros H1 H2 H3 H4 Hi He.
  unfold Signer.dns_ValidityPeriod, Signer.check_time, Signer.year68.
  cbn [sigData]. rewrite Hi, He.
  unfold Signer.incep_of, Signer.expir_of, to_uint32.
  rewrite !Z.mod_small by lia.
  rewrite (Z.quot_small (now0 - 2 * 3600 - (now - 24 * 3600))) by lia.
  apply andb_false_intro1. lia.
Qed.

End Validity.

(** C4: a cached signature has to be appended only if it stays valid for
    24 more hours, and be evicted otherwise.  [sign] checks the validity
    at 24 hours before now: a cached signature that expired an hour ago
    (and began three days ago) passes the check, is appended to the
    section and stays in the cache. *)
Theorem expired_cached_signature_is_served (PrivateKey : Type)
    (Sign : PrivateKey → RRSIG → list RR → RRSIG * option string)
    (srv : Signer.Server PrivateKey) (section : list RR) :
  let now := 1400000000 in
  let r := [mkRR (mkHeader "web.prod." TypeA ClassINET 60 4) (A [10; 0; 0; 1])] in
  let sig := mkRRSIG (mkHeader "web.prod." TypeRRSIG ClassINET 60 0)
               (mkSigData TypeA 5 2 60 (now - 3600) (now - 3 * 86400) 7
                  "prod." "c2ln") in
  ∃ k, SigCache.key r = Some k ∧
    Signer.sign_set PrivateKey Sign Signer.dns_ValidityPeriod srv now r
        ({[k := sig]}, section)
      = Some ({[k := sig]}, section ++ [rr_of_sig sig]) ∧
    Signer.dns_ValidityPeriod sig now = false ∧
    Signer.valid_for_a_day Signer.dns_ValidityPeriod sig now = false.
Proof.
  intros now r sig. eexists. split; [reflexivity|]. split; [|done].
  eapply sign_set_cached; [reflexivity|apply lookup_singleton_eq|reflexivity].
Qed.

Section SignTotal.

Variable PrivateKey : Type.
Variable Sign : PrivateKey → RRSIG → list RR → RRSIG * option string.
Variable Len : Signer.Msg → Z.
Variable ValidityPeriod : RRSIG → Z → bool.
Variable srv : Signer.Server PrivateKey.

Lemma rrSets_loop_made rrs m :
  map_Forall (λ _, made) m → map_Forall (λ _, made) (rrSets_loop rrs m).
Proof.
  revert m. induction rrs as [|r rrs IH]; intros m Hm; [done|].
  apply IH. by apply rrSets_step_made.
Qed.

Lemma made_elems s : made s → Slice.elems s ≠ [].
Proof.
  intros [Hlen (r & x & y & Harr)]. unfold Slice.elems.
  by rewrite Hlen, Harr.
Qed.

Lemma sign_fresh_returns now k r c section :
  is_Some (Signer.sign_fresh PrivateKey Sign srv now k r c section).
Proof.
  unfold Signer.sign_fresh, Signer.sign_fresh_with. rewrite Do_alone_runs. cbn [mbind option_bind].
  destruct (Sign _ _ _) as [sig [e|]]; eauto.
Qed.

Lemma sign_set_returns now r st :
  r ≠ [] →
  is_Some (Signer.sign_set PrivateKey Sign ValidityPeriod srv now r st).
Proof.
  intros Hr. unfold Signer.sign_set, Signer.sign_set_with, SigCache.key.
  destruct r as [|r0 r]; [done|]. cbn [head mbind option_bind].
  destruct (SigCache.search _ _) as [sig|]; [|apply sign_fresh_returns].
  destruct (ValidityPeriod _ _); [eauto|apply sign_fresh_returns].
Qed.

Lemma sign_section_returns now c section :
  is_Some (Signer.sign_section PrivateKey Sign ValidityPeriod srv now c section).
Proof.
  unfold Signer.sign_section.
  set (sets := match rrSets section with Some m => _ | None => [] end).
  assert (Forall (λ r, r ≠ []) sets) as Hsets.
  { unfold sets, rrSets. case_bool_decide; [|constructor].
    apply Forall_fmap, Forall_forall. intros [key s] Hin. cbn.
    apply elem_of_map_to_list in Hin. apply made_elems.
    eapply (rrSets_loop_made section ∅); [apply map_Forall_empty|done]. }
  generalize (c, section). clearbody sets.
  induction Hsets as [|r sets Hr _ IH]; intros st; [by eexists|].
  cbn [foldl mbind option_bind].
  destruct (sign_set_returns now r st Hr) as [st' ->]. apply IH.
Qed.

Lemma set_truncated_always bufsize m :
  Signer.set_truncated Len bufsize m =
    Signer.mkMsg (Signer.Rcode m) (Signer.Answer m) (Signer.Ns m)
      (Signer.Extra m) (bufsize <? Len m).
Proof.
  unfold Signer.set_truncated.
  destruct (512 <=? bufsize) eqn:H1; [done|].
  destruct (bufsize <=? 4096) eqn:H2; [done|]. lia.
Qed.

End SignTotal.

(** C6: the truncation flag has to be set from the comparison of the
    message length with the buffer size only for buffer sizes in
    [512, 4096].  The guard of [sign] is a disjunction that every buffer
    size passes: for every buffer size [sign] returns with the flag set to
    the comparison of the buffer size with the length of the message as
    assembled before the OPT record. *)
Theorem truncation_set_for_every_bufsize (PrivateKey : Type)
    (Sign : PrivateKey → RRSIG → list RR → RRSIG * option string)
    (Len : Signer.Msg → Z) (ValidityPeriod : RRSIG → Z → bool)
    (srv : Signer.Server PrivateKey) (now bufsize : Z)
    (c : gmap (list Z) RRSIG) (m : Signer.Msg) :
  ∃ c' m',
    Signer.sign PrivateKey Sign Len ValidityPeriod srv now bufsize c m
      = Some (c', m') ∧
    Signer.Truncated m' =
      (bufsize <? Len (Signer.mkMsg (Signer.Rcode m) (Signer.Answer m')
                         (Signer.Ns m') (Signer.Extra m) (Signer.Truncated m))).
Proof.
  unfold Signer.sign.
  destruct (sign_section_returns PrivateKey Sign ValidityPeriod srv now c
              (Signer.Answer m)) as [[c1 ans] ->].
  cbn [mbind option_bind].
  destruct (sign_section_returns PrivateKey Sign ValidityPeriod srv now c1
              (Signer.Ns m)) as [[c2 ns] ->].
  cbn [mbind option_bind].
  eexists _, _. split; [reflexivity|].
  by rewrite set_truncated_always.
Qed.

(** ** The single-flight coordinator *)

Module SingleFlightProofs.
Import SingleFlight.


Section Callers.

Context {K : Type} `{Countable K} {R : Type}.
Variable n : nat.
Variable k : K.
Variable fn : nat → R.

Local Abbreviation step1 := (step (R := R) (λ _, k) fn).
Local Abbreviation run1 := (run (R := R) (λ _, k) fn).
Local Abbreviation state1 := (@state K _ _ R).












(** *** Before a caller leaves

    The callers are no more than the largest [int], so [c.dups] does not
    wrap around. *)

Section Fits.

Hypothesis n_fits : Z.of_nat n ≤ maxInt.





End Fits.

(** *** Once all callers are in flight *)




(** *** What the callers get *)






(** *** Every caller returns *)






End Callers.
End SingleFlightProofs.




(** Why [all_in_flight] asks that no caller has passed the second locked
    section: a caller that arrives after the executing caller deregistered
    the key, and before that caller returned, registers a call of its own.
    Neither caller has returned at that moment, and [fn] is invoked
    twice; each caller is told that its result was not shared. *)
Lemma single_flight_late_caller_invokes_again :
  let mid := SingleFlight.run (λ _, "web"%string) (λ t : nat, t)
               [0; 0; 0; 1; 1]%nat (SingleFlight.init 2) in
  let fin := SingleFlight.run (λ _, "web"%string) (λ t : nat, t)
               [0; 1; 1]%nat mid in
  SingleFlight.threads mid = [SingleFlight.Leaving 0; SingleFlight.Cleanup 1] ∧
  SingleFlight.invoked mid = [0; 1]%nat ∧
  SingleFlight.result fin 0 = Some (Some 0%nat, false) ∧
  SingleFlight.result fin 1 = Some (Some 1%nat, false).
Proof. vm_compute. done. Qed.

(** * Further properties *)

(** ** The grouper and the byte encodings *)

(** X1: for every list of records and every key, the group [rrSets]
    returns for the key holds exactly the first record of the list with
    that key, and there is no group when no record has the key. *)
Theorem rrSets_group_is_first_record (rrs : list RR) (k : rrset) :
  group rrs k = (λ r, [r]) <$> head (records_of k rrs).
Proof. apply group_first. Qed.

(** X2: [rrSets] returns the nil map exactly for the empty list. *)
Theorem rrSets_nil_iff_empty (rrs : list RR) :
  rrSets rrs = None ↔ rrs = [].
Proof.
  split.
  - intros Hnil. destruct rrs as [|r rrs]; [done|]. exfalso.
    unfold rrSets in Hnil. case_bool_decide as Hsz; [done|]. apply Hsz.
    unfold rrSets_loop; simpl. apply rrSets_loop_size.
    unfold rrSets_step. rewrite lookup_empty.
    rewrite map_size_insert_None by apply lookup_empty. lia.
  - intros ->. reflexivity.
Qed.

Section Bytes.

Lemma to_byte_mod z : to_byte z = z mod 256.
Proof. unfold to_byte. apply (Z.land_ones z 8). lia. Qed.

Lemma shiftr_div z n : 0 ≤ n → Z.shiftr z n = z / 2 ^ n.
Proof. intros Hn. by apply Z.shiftr_div_pow2. Qed.

End Bytes.

Lemma packUint16_bytes (i : Z) :
  0 ≤ i < 2 ^ 16 →
  ∃ hi lo, packUint16 i = [hi; lo] ∧
    0 ≤ hi < 256 ∧ 0 ≤ lo < 256 ∧ 256 * hi + lo = i.
Proof.
  intros Hi. eexists _, _. split; [reflexivity|].
  rewrite !to_byte_mod, shiftr_div by lia.
  change (2 ^ 8) with 256.
  pose proof (Z.mod_pos_bound (i / 256) 256 ltac:(lia)).
  pose proof (Z.mod_pos_bound i 256 ltac:(lia)).
  split_and!; try lia.
  rewrite (Z.mod_small (i / 256)).
  - pose proof (Z.div_mod i 256 ltac:(lia)). lia.
  - split; [apply Z.div_pos; lia|]. apply Z.div_lt_upper_bound; lia.
Qed.

(** X3: [packUint16] writes a 16-bit value as two bytes, most significant
    first, from which the value is read back. *)
Theorem packUint16_big_endian (i : Z) :
  0 ≤ i < 2 ^ 16 →
  ∃ hi lo, packUint16 i = [hi; lo] ∧
    0 ≤ hi < 256 ∧ 0 ≤ lo < 256 ∧ 256 * hi + lo = i.
Proof. apply packUint16_bytes. Qed.

Lemma packUint16_big_endian_witness :
  ∃ hi lo, packUint16 8080 = [hi; lo] ∧
    0 ≤ hi < 256 ∧ 0 ≤ lo < 256 ∧ 256 * hi + lo = 8080.
Proof. apply (packUint16_big_endian 8080). lia. Defined.

Lemma packUint32_bytes (i : Z) :
  0 ≤ i < 2 ^ 32 →
  ∃ b3 b2 b1 b0, packUint32 i = [b3; b2; b1; b0] ∧
    0 ≤ b3 < 256 ∧ 0 ≤ b2 < 256 ∧ 0 ≤ b1 < 256 ∧ 0 ≤ b0 < 256 ∧
    ((b3 * 256 + b2) * 256 + b1) * 256 + b0 = i.
Proof.
  intros Hi. eexists _, _, _, _. split; [reflexivity|].
  rewrite !to_byte_mod, !shiftr_div by lia.
  change (2 ^ 8) with 256. change (2 ^ 16) with 65536.
  change (2 ^ 24) with 16777216.
  pose proof (Z.mod_pos_bound (i / 16777216) 256 ltac:(lia)).
  pose proof (Z.mod_pos_bound (i / 65536) 256 ltac:(lia)).
  pose proof (Z.mod_pos_bound (i / 256) 256 ltac:(lia)).
  pose proof (Z.mod_pos_bound i 256 ltac:(lia)).
  split_and!; try lia.
  assert (i / 16777216 < 256) by (apply Z.div_lt_upper_bound; lia).
  assert (0 ≤ i / 16777216) by (apply Z.div_pos; lia).
  rewrite (Z.mod_small (i / 16777216)) by lia.
  pose proof (Z.div_mod i 256 ltac:(lia)).
  pose proof (Z.div_mod (i / 256) 256 ltac:(lia)).
  pose proof (Z.div_mod (i / 256 / 256) 256 ltac:(lia)).
  rewrite !Z.div_div in * by lia.
  change (256 * 256) with 65536 in *. change (65536 * 256) with 16777216 in *.
  lia.
Qed.

(** X4: [packUint32] writes a 32-bit value as four bytes, most
    significant first, from which the value is read back. *)
Theorem packUint32_big_endian (i : Z) :
  0 ≤ i < 2 ^ 32 →
  ∃ b3 b2 b1 b0, packUint32 i = [b3; b2; b1; b0] ∧
    0 ≤ b3 < 256 ∧ 0 ≤ b2 < 256 ∧ 0 ≤ b1 < 256 ∧ 0 ≤ b0 < 256 ∧
    ((b3 * 256 + b2) * 256 + b1) * 256 + b0 = i.
Proof. apply packUint32_bytes. Qed.

Lemma packUint32_big_endian_witness :
  ∃ b3 b2 b1 b0, packUint32 2014021700 = [b3; b2; b1; b0] ∧
    0 ≤ b3 < 256 ∧ 0 ≤ b2 < 256 ∧ 0 ≤ b1 < 256 ∧ 0 ≤ b0 < 256 ∧
    ((b3 * 256 + b2) * 256 + b1) * 256 + b0 = 2014021700.
Proof. apply (packUint32_big_endian 2014021700). lia. Defined.

(** ** The signature cache and the fingerprint *)

Section Injective.

Lemma packUint16_inj a b :
  0 ≤ a < 2 ^ 16 → 0 ≤ b < 2 ^ 16 → packUint16 a = packUint16 b → a = b.
Proof.
  intros Ha Hb Heq.
  destruct (packUint16_bytes a Ha) as (h1 & l1 & E1 & _ & _ & <-).
  destruct (packUint16_bytes b Hb) as (h2 & l2 & E2 & _ & _ & <-).
  rewrite E1, E2 in Heq. by simplify_eq.
Qed.

Lemma packUint32_inj a b :
  0 ≤ a < 2 ^ 32 → 0 ≤ b < 2 ^ 32 → packUint32 a = packUint32 b → a = b.
Proof.
  intros Ha Hb Heq.
  destruct (packUint32_bytes a Ha) as (? & ? & ? & ? & E1 & _ & _ & _ & _ & <-).
  destruct (packUint32_bytes b Hb) as (? & ? & ? & ? & E2 & _ & _ & _ & _ & <-).
  rewrite E1, E2 in Heq. by simplify_eq.
Qed.

Lemma bytes_of_string_inj s t : bytes_of_string s = bytes_of_string t → s = t.
Proof.
  unfold bytes_of_string. intros Heq.
  assert (Inj (=) (=) (λ c, Z.of_N (Ascii.N_of_ascii c))) as Hinj.
  { intros c1 c2 Hc. apply N2Z.inj in Hc.
    rewrite <-(Ascii.ascii_N_embedding c1), <-(Ascii.ascii_N_embedding c2).
    by rewrite Hc. }
  apply (inj _) in Heq.
  rewrite <-(String.string_of_list_ascii_of_string s),
          <-(String.string_of_list_ascii_of_string t). by rewrite Heq.
Qed.

Lemma key_single (r : RR) :
  SigCache.key [r] =
    Some ((bytes_of_string (Name (Hdr r)) ++ packUint16 (Rrtype (Hdr r)))
            ++ SigCache.key_rdata r ++ SigCache.sha1_of_nothing).
Proof.
  unfold SigCache.key, SigCache.Sum. cbn [head mbind option_bind foldl].
  by rewrite <-(assoc_L (++)).
Qed.

Lemma key_single_inv h d d' :
  SigCache.key [mkRR h d] = SigCache.key [mkRR h d'] →
  SigCache.key_rdata (mkRR h d) = SigCache.key_rdata (mkRR h d').
Proof.
  rewrite !key_single. cbn [Hdr]. intros Heq. simplify_eq.
  by apply app_inv_tail in Heq.
Qed.

End Injective.

(** X5: after [insert] the cache answers [search] for the fingerprint
    with the entry that was there, or with the new signature when there
    was none; the other fingerprints are as before. *)
Theorem cache_lookup_after_store (c : gmap (list Z) RRSIG) (k : list Z)
    (s : RRSIG) :
  SigCache.search k (SigCache.insert k s c) =
    Some (default s (SigCache.search k c)) ∧
  ∀ k', k' ≠ k →
    SigCache.search k' (SigCache.insert k s c) = SigCache.search k' c.
Proof.
  unfold SigCache.search, SigCache.insert. split.
  - destruct (c !! k) eqn:Hk; [done|]. by rewrite lookup_insert_eq.
  - intros k' Hne. destruct (c !! k); [done|]. by rewrite lookup_insert_ne.
Qed.

(** X6: [remove] leaves no entry for the fingerprint, an [insert] that
    follows stores the new signature, and the other fingerprints are as
    before: this is how [sign] replaces a stale entry. *)
Theorem cache_evict_then_store (c : gmap (list Z) RRSIG) (k : list Z)
    (s : RRSIG) :
  SigCache.search k (SigCache.remove k c) = None ∧
  SigCache.search k (SigCache.insert k s (SigCache.remove k c)) = Some s ∧
  ∀ k', k' ≠ k →
    SigCache.search k' (SigCache.insert k s (SigCache.remove k c))
      = SigCache.search k' c.
Proof.
  unfold SigCache.search, SigCache.insert, SigCache.remove.
  rewrite lookup_delete_eq. split_and!; [done|by rewrite lookup_insert_eq|].
  intros k' Hne. rewrite lookup_insert_ne by done. by rewrite lookup_delete_ne.
Qed.

(** X7: the fingerprint of an RRset does not change when the TTL of its
    records changes. *)
Theorem fingerprint_ignores_ttl (ttl : Z) (rrs : list RR) :
  SigCache.key (with_ttl ttl <$> rrs) = SigCache.key rrs.
Proof. apply key_with_ttl. Qed.

(** X8: two service records with the same header get the same
    fingerprint exactly when priority, weight and target agree; the port
    has no part in it. *)
Theorem fingerprint_of_service_record (h : RR_Header)
    (p w port p' w' port' : Z) (t t' : string) :
  0 ≤ p < 2 ^ 16 → 0 ≤ w < 2 ^ 16 → 0 ≤ p' < 2 ^ 16 → 0 ≤ w' < 2 ^ 16 →
  SigCache.key [mkRR h (SRV p w port t)] = SigCache.key [mkRR h (SRV p' w' port' t')]
  ↔ p = p' ∧ w = w' ∧ t = t'.
Proof.
  intros Hp Hw Hp' Hw'. split.
  - intros Heq. apply key_single_inv in Heq.
    unfold SigCache.key_rdata in Heq. cbn [Data] in Heq.
    assert (packUint16 p = packUint16 p' ∧ packUint16 w = packUint16 w' ∧
            bytes_of_string t = bytes_of_string t') as (H1 & H2 & H3).
    { unfold packUint16 in *. cbn [app] in Heq.
      injection Heq as -> -> -> -> _ _ ->. done. }
    split_and!; [by apply packUint16_inj|by apply packUint16_inj|
                 by apply bytes_of_string_inj].
  - intros (-> & -> & ->). reflexivity.
Qed.

Lemma fingerprint_of_service_record_witness :
  let h := mkHeader "web.prod." TypeSRV ClassINET 60 0 in
  SigCache.key [mkRR h (SRV 10 20 8080 "a.example.")] =
  SigCache.key [mkRR h (SRV 10 20 8081 "a.example.")]
  ↔ 10 = 10 ∧ 20 = 20 ∧ "a.example."%string = "a.example."%string.
Proof.
  intros h.
  apply (fingerprint_of_service_record h 10 20 8080 10 20 8081); lia.
Defined.

(** X9: two zone-authority records with the same header get the same
    fingerprint exactly when their serial numbers agree. *)
Theorem fingerprint_of_zone_authority_record (h : RR_Header)
    (ns mbox ns' mbox' : string)
    (serial refresh retry expire minttl : Z)
    (serial' refresh' retry' expire' minttl' : Z) :
  0 ≤ serial < 2 ^ 32 → 0 ≤ serial' < 2 ^ 32 →
  SigCache.key [mkRR h (SOA ns mbox serial refresh retry expire minttl)] =
  SigCache.key [mkRR h (SOA ns' mbox' serial' refresh' retry' expire' minttl')]
  ↔ serial = serial'.
Proof.
  intros Hs Hs'. split.
  - intros Heq. apply key_single_inv in Heq.
    unfold SigCache.key_rdata in Heq. cbn [Data] in Heq.
    by apply packUint32_inj.
  - intros ->. reflexivity.
Qed.

Lemma fingerprint_of_zone_authority_record_witness :
  let h := mkHeader "skydns.local." TypeSOA ClassINET 3600 0 in
  SigCache.key [mkRR h (SOA "ns." "hostmaster." 2014021700 28800 7200 604800 60)] =
  SigCache.key [mkRR h (SOA "ns." "hostmaster." 2014021701 28800 7200 604800 60)]
  ↔ 2014021700 = 2014021701.
Proof.
  intros h.
  apply (fingerprint_of_zone_authority_record h); lia.
Defined.

(** ** The registries of the denial index *)

Module DenialShape.
Import Denial DenialProofs.

Section Decomposition.

Lemma names_not_in_others (l1 l2 : list denialref) r :
  NoDup (name <$> (l1 ++ r :: l2)) →
  (name r ∉ name <$> l1) ∧ (name r ∉ name <$> l2).
Proof.
  rewrite fmap_app, fmap_cons. intros Hnd.
  apply NoDup_app in Hnd as (_ & Hdis & Hnd2).
  apply NoDup_cons in Hnd2 as [Hnot _]. split; [|done].
  intros Hin. apply (Hdis _ Hin). by left.
Qed.

(** What [insert] does to a registry: the entry of [x], if there is one,
    is replaced by one with the count plus one, otherwise an entry with
    count 1 is put in; nothing else moves. *)
Lemma insert_reg_decompose x reg :
  inv reg → room_for x reg →
  ∃ l1 l2 old c,
    reg = l1 ++ old ++ l2 ∧
    insert_reg x reg = l1 ++ [mkRef x (c + 1)] ++ l2 ∧
    (x ∉ name <$> l1) ∧ (x ∉ name <$> l2) ∧
    ((old = [] ∧ c = 0) ∨ (old = [mkRef x c] ∧ 0 < c < maxInt)).
Proof.
  intros (Hs & Hnd & Hc) Hroom.
  destruct (decide (x ∈ name <$> reg)) as [Hin|Hnot].
  - apply list_elem_of_fmap in Hin as (r & -> & Hr).
    apply list_elem_of_lookup in Hr as [j Hj].
    pose proof (take_drop_middle reg j r Hj) as Hreg.
    rewrite <-Hreg in Hnd. apply names_not_in_others in Hnd as [Hn1 Hn2].
    rewrite Forall_lookup in Hc. specialize (Hc j r Hj).
    assert (reference r < maxInt)
      by (apply Hroom; [by eapply list_elem_of_lookup_2|done]).
    exists (take j reg), (drop (S j) reg), [r], (reference r).
    split_and!; try done.
    + rewrite (insert_reg_present _ reg Hs j r Hj eq_refl).
      rewrite wrap_int_id by (unfold maxInt in *; lia).
      rewrite <-Hreg at 1.
      pose proof (lookup_lt_Some _ _ _ Hj) as Hlt.
      rewrite insert_app_r_alt by (rewrite length_take; lia).
      rewrite length_take, Nat.min_l by lia. by rewrite Nat.sub_diag.
    + right. split; [by destruct r|lia].
  - rewrite (insert_reg_absent x reg Hs Hnot).
    set (i := sort_Search (length reg) (name_ge reg x)).
    exists (take i reg), (drop i reg), [], 0.
    split_and!.
    + cbn [app]. by rewrite take_drop.
    + done.
    + intros Hin. apply Hnot. rewrite <-(take_drop i reg), fmap_app.
      apply elem_of_app. by left.
    + intros Hin. apply Hnot. rewrite <-(take_drop i reg), fmap_app.
      apply elem_of_app. by right.
    + by left.
Qed.

(** What [remove] does to a registry. *)
Lemma remove_reg_decompose x reg :
  inv reg →
  ∃ l1 l2 old new,
    reg = l1 ++ old ++ l2 ∧
    remove_reg x reg = l1 ++ new ++ l2 ∧
    (x ∉ name <$> l1) ∧ (x ∉ name <$> l2) ∧
    ((old = [] ∧ new = []) ∨
     ∃ c, old = [mkRef x c] ∧ 0 < c ≤ maxInt ∧
          new = if decide (c = 1) then [] else [mkRef x (c - 1)]).
Proof.
  intros (Hs & Hnd & Hc).
  destruct (decide (x ∈ name <$> reg)) as [Hin|Hnot].
  - apply list_elem_of_fmap in Hin as (r & -> & Hr).
    apply list_elem_of_lookup in Hr as [j Hj].
    pose proof (take_drop_middle reg j r Hj) as Hreg.
    rewrite <-Hreg in Hnd. apply names_not_in_others in Hnd as [Hn1 Hn2].
    rewrite Forall_lookup in Hc. specialize (Hc j r Hj).
    exists (take j reg), (drop (S j) reg), [r],
      (if decide (reference r = 1) then []
       else [mkRef (name r) (reference r - 1)]).
    split_and!; try done.
    + rewrite (remove_reg_present _ reg Hs j r Hj eq_refl Hc).
      case_decide; [done|].
      rewrite <-Hreg at 1.
      pose proof (lookup_lt_Some _ _ _ Hj) as Hlt.
      rewrite insert_app_r_alt by (rewrite length_take; lia).
      rewrite length_take, Nat.min_l by lia. by rewrite Nat.sub_diag.
    + right. exists (reference r). split_and!; try done; try lia.
      * by destruct r.
  - exists reg, [], [], []. rewrite (remove_reg_absent x reg Hnot).
    rewrite !app_nil_r. split_and!; try done.
    + rewrite fmap_nil. apply not_elem_of_nil.
    + by left.
Qed.

End Decomposition.

Section Counting.

(** The count the index keeps for [y] in a registry. *)
Lemma count_in_parts y (l1 mid l2 : list denialref) :
  y ∉ name <$> l1 →
  head (filter (λ r, name r = y) (l1 ++ mid ++ l2)) =
    head (filter (λ r, name r = y) (mid ++ l2)).
Proof.
  intros Hnot. rewrite filter_app.
  assert (filter (λ r, name r = y) l1 = []) as ->; [|done].
  induction l1 as [|a l1 IH]; [done|].
  rewrite fmap_cons, not_elem_of_cons in Hnot. destruct Hnot as [Hne Hnot].
  rewrite filter_cons_False by done. by apply IH.
Qed.

Lemma count_skips_other x y c (l2 : list denialref) :
  y ≠ x →
  filter (λ r, name r = y) (mkRef x c :: l2) = filter (λ r, name r = y) l2.
Proof. intros Hne. by rewrite filter_cons_False by (cbn; congruence). Qed.

Lemma count_absent y (l : list denialref) :
  y ∉ name <$> l → filter (λ r, name r = y) l = [].
Proof.
  induction l as [|a l IH]; [done|]. rewrite fmap_cons, not_elem_of_cons.
  intros [Hne Hnot]. rewrite filter_cons_False by done. by apply IH.
Qed.

End Counting.

End DenialShape.

Module DenialCounts.
Import Denial DenialProofs DenialShape.

Section RoundTrip.

Lemma remove_insert_reg x reg :
  inv reg → room_for x reg → remove_reg x (insert_reg x reg) = reg.
Proof.
  intros Hinv Hroom.
  pose proof (inv_insert x reg Hinv Hroom) as (Hs' & _ & Hc').
  destruct (insert_reg_decompose x reg Hinv Hroom)
    as (l1 & l2 & old & c & Hreg & Hins & _ & _ & Hold).
  assert (insert_reg x reg !! length l1 = Some (mkRef x (c + 1))) as Hj.
  { rewrite Hins. cbn [app]. by apply list_lookup_middle. }
  assert (0 < c + 1 ≤ maxInt) as Hrange.
  { rewrite Forall_lookup in Hc'. apply (Hc' _ _ Hj). }
  rewrite (remove_reg_present x _ Hs' _ _ Hj eq_refl Hrange). cbn [reference].
  rewrite Hins, Hreg.
  destruct Hold as [[-> ->]|[-> Hc]].
  - rewrite decide_True by done. cbn [app].
    rewrite take_app_length. rewrite (cons_middle _ l1 l2), (assoc_L (++)).
    rewrite drop_app_length'; [done|]. rewrite length_app. cbn. lia.
  - rewrite decide_False by lia. cbn [app].
    rewrite insert_app_r_alt by lia. rewrite Nat.sub_diag. cbn.
    do 3 f_equal. lia.
Qed.

Lemma at_depth_Some d l reg :
  at_depth d l = Some reg →
  1 ≤ l ∧ d !! Z.to_nat (l - 1) = Some reg.
Proof. unfold at_depth. case_bool_decide; [|done]. done. Qed.

Lemma at_depth_insert_ne d l l' reg' :
  l' ≠ l → 1 ≤ l →
  at_depth (<[Z.to_nat (l - 1) := reg']> d) l' = at_depth d l'.
Proof.
  intros Hne Hl. unfold at_depth. case_bool_decide; [|done].
  apply list_lookup_insert_ne. lia.
Qed.

End RoundTrip.

Section Counts.

Variable x : string.
Variable l : Z.
Variable d : list (list denialref).
Variable reg : list denialref.
Hypothesis Hd : at_depth d l = Some reg.
Hypothesis Hinv : inv reg.

Lemma count_of_at d' reg' y :
  at_depth d' l = Some reg' →
  count_of y l d' = reference <$> head (filter (λ r, name r = y) reg').
Proof. intros Hd'. unfold count_of. by rewrite Hd'. Qed.


Lemma count_after_remove :
  let d2 := <[Z.to_nat (l - 1) := remove_reg x reg]> d in
  count_of x l d2 =
    (c ← count_of x l d; if decide (c = 1) then None else Some (c - 1)) ∧
  ∀ y, y ≠ x → count_of y l d2 = count_of y l d.
Proof.
  intros d2.
  pose proof (at_depth_insert d l reg (remove_reg x reg) Hd) as Hd2.
  destruct (remove_reg_decompose x reg Hinv)
    as (l1 & l2 & old & new & Hreg & Hrem & Hn1 & Hn2 & Hold).
  split.
  - rewrite (count_of_at d2 _ x Hd2), (count_of_at d reg x Hd).
    rewrite Hrem, Hreg, !count_in_parts by done.
    destruct Hold as [[-> ->]|(c & -> & Hc & ->)]; cbn [app].
    + by rewrite count_absent.
    + rewrite filter_cons_True by done. cbn.
      case_decide; cbn [app].
      * by rewrite count_absent.
      * by rewrite filter_cons_True.
  - intros y Hne.
    rewrite (count_of_at d2 _ y Hd2), (count_of_at d reg y Hd).
    rewrite Hrem, Hreg, !filter_app.
    destruct Hold as [[-> ->]|(c & -> & Hc & ->)]; cbn [app]; [done|].
    rewrite count_skips_other by done.
    case_decide; cbn [app]; [done|]. by rewrite count_skips_other.
Qed.

End Counts.

End DenialCounts.

(** X10: on a registry that keeps its invariant, [insert] of a name
    followed by [remove] of the same name gives the index back as it was. *)
Theorem denial_insert_then_remove_restores
    (x : string) (l : Z) (d : list (list Denial.denialref))
    (reg : list Denial.denialref) :
  Denial.at_depth d l = Some reg →
  Denial.inv reg →
  Denial.room_for x reg →
  Denial.insert x l d ≫= Denial.remove x l = Some d.
Proof.
  intros Hd Hinv Hroom.
  unfold Denial.insert. rewrite Hd. cbn [mbind option_bind].
  unfold Denial.remove.
  rewrite (at_depth_insert d l reg _ Hd). cbn [mbind option_bind].
  rewrite DenialCounts.remove_insert_reg by done.
  rewrite list_insert_insert_eq.
  apply DenialCounts.at_depth_Some in Hd as [_ Hd].
  by rewrite list_insert_id.
Qed.

Lemma denial_insert_then_remove_restores_witness :
  let reg := [Denial.mkRef "a" 1; Denial.mkRef "c" 2] in
  let d := [reg; []; []; []] in
  Denial.insert "b" 1 d ≫= Denial.remove "b" 1 = Some d.
Proof.
  intros reg d.
  apply (denial_insert_then_remove_restores "b" 1 d reg).
  - reflexivity.
  - split_and!.
    + repeat constructor.
    + apply DenialProofs.sorted_NoDup. repeat constructor.
    + repeat constructor; vm_compute; congruence.
  - intros r Hr Hname. apply list_elem_of_In in Hr. simpl in Hr.
    destruct Hr as [<-|[<-|[]]]; vm_compute; reflexivity.
Defined.



(** X12: [remove] lowers the count of the name by one, drops the entry
    whose count was one, does nothing for a name without entry, and leaves
    the count of every other name. *)
Theorem denial_remove_counts_one_down
    (x : string) (l : Z) (d : list (list Denial.denialref))
    (reg : list Denial.denialref) :
  Denial.at_depth d l = Some reg →
  Denial.inv reg →
  ∃ d2, Denial.remove x l d = Some d2 ∧
    Denial.count_of x l d2 =
      (c ← Denial.count_of x l d;
       if decide (c = 1) then None else Some (c - 1)) ∧
    ∀ y, y ≠ x → Denial.count_of y l d2 = Denial.count_of y l d.
Proof.
  intros Hd Hinv. eexists. split.
  - unfold Denial.remove. rewrite Hd. reflexivity.
  - by apply DenialCounts.count_after_remove.
Qed.

Lemma denial_remove_counts_one_down_witness :
  let reg := [Denial.mkRef "a" 1; Denial.mkRef "c" 2] in
  let d := [reg; []; []; []] in
  ∃ d2, Denial.remove "a" 1 d = Some d2 ∧
    Denial.count_of "a" 1 d2 =
      (c ← Denial.count_of "a" 1 d;
       if decide (c = 1) then None else Some (c - 1)) ∧
    ∀ y, y ≠ "a"%string → Denial.count_of y 1 d2 = Denial.count_of y 1 d.
Proof.
  intros reg d.
  apply (denial_remove_counts_one_down "a" 1 d reg).
  - reflexivity.
  - split_and!.
    + repeat constructor.
    + apply DenialProofs.sorted_NoDup. repeat constructor.
    + repeat constructor; vm_compute; congruence.
Defined.

(** X13: on an index of four registries [insert] and [remove] panic
    exactly for a depth outside 1..4, [search] panics there too, and an
    [insert] or [remove] that returns leaves the registries of the other
    depths alone. *)
Theorem denial_depth_bounds (x : string) (l : Z)
    (d : list (list Denial.denialref)) :
  length d = 4%nat →
  (Denial.insert x l d = None ↔ l < 1 ∨ 4 < l) ∧
  (Denial.remove x l d = None ↔ l < 1 ∨ 4 < l) ∧
  (l < 1 ∨ 4 < l → Denial.search x l d = None) ∧
  (∀ d', Denial.insert x l d = Some d' ∨ Denial.remove x l d = Some d' →
     length d' = 4%nat ∧
     ∀ l', l' ≠ l → Denial.at_depth d' l' = Denial.at_depth d l').
Proof.
  intros Hlen.
  assert (Denial.at_depth d l = None ↔ l < 1 ∨ 4 < l) as Hnone.
  { unfold Denial.at_depth. case_bool_decide as Hl.
    - rewrite lookup_ge_None, Hlen. lia.
    - split; [lia|done]. }
  assert (∀ reg', Denial.at_depth d l = Some reg' → 1 ≤ l) as Hsome.
  { intros reg' H. by apply DenialCounts.at_depth_Some in H as [? _]. }
  unfold Denial.insert, Denial.remove, Denial.search.
  destruct (Denial.at_depth d l) as [reg|] eqn:Hd; cbn [mbind option_bind].
  - split_and!.
    + split; [done|]. intros H. by apply Hnone in H.
    + split; [done|]. intros H. by apply Hnone in H.
    + intros H. by apply Hnone in H.
    + intros d' [Heq|Heq]; injection Heq as <-;
        (split; [by rewrite length_insert|]);
        intros l' Hne; apply DenialCounts.at_depth_insert_ne; eauto.
  - split_and!; try done.
    + split; [intros _; by apply Hnone|done].
    + split; [intros _; by apply Hnone|done].
    + by intros d' [|].
Qed.

Lemma denial_depth_bounds_witness :
  (Denial.insert "prod" 5 Denial.newDenialList = None ↔ 5 < 1 ∨ 4 < 5) ∧
  (Denial.remove "prod" 5 Denial.newDenialList = None ↔ 5 < 1 ∨ 4 < 5) ∧
  (5 < 1 ∨ 4 < 5 → Denial.search "prod" 5 Denial.newDenialList = None) ∧
  (∀ d', Denial.insert "prod" 5 Denial.newDenialList = Some d' ∨
         Denial.remove "prod" 5 Denial.newDenialList = Some d' →
     length d' = 4%nat ∧
     ∀ l', l' ≠ 5 → Denial.at_depth d' l' = Denial.at_depth Denial.newDenialList l').
Proof. apply (denial_depth_bounds "prod" 5 Denial.newDenialList). reflexivity. Defined.

Module DenialSearch.
Import Denial DenialProofs.

Section Position.

Variable x : string.
Variable reg : list denialref.
Hypothesis Hsorted : StronglySorted str_lt (name <$> reg).

(** The insertion point is the one index with smaller names before it and
    no smaller name from it on. *)
Lemma search_position_between l1 a b l2 :
  reg = l1 ++ a :: b :: l2 →
  String.ltb (name a) x = true → String.leb x (name b) = true →
  sort_Search (length reg) (name_ge reg x) = S (length l1).
Proof.
  intros Hreg Ha Hb.
  destruct (search_position x reg Hsorted) as (Hle & Hlo & Hhi).
  set (i := sort_Search (length reg) (name_ge reg x)) in *.
  assert (reg !! length l1 = Some a) as Hia
    by (rewrite Hreg; by apply list_lookup_middle).
  assert (reg !! S (length l1) = Some b) as Hib.
  { rewrite Hreg, (cons_middle a l1), (assoc_L (++)).
    apply list_lookup_middle. rewrite length_app. cbn. lia. }
  destruct (decide (i ≤ length l1)%nat) as [Hsmall|Hbig].
  - exfalso. rewrite Forall_lookup in Hhi.
    specialize (Hhi (length l1 - i)%nat a).
    rewrite lookup_drop in Hhi.
    replace (i + (length l1 - i))%nat with (length l1) in Hhi by lia.
    specialize (Hhi Hia). apply leb_false_ltb in Ha. congruence.
  - destruct (decide (i = S (length l1))) as [|Hne]; [done|]. exfalso.
    rewrite Forall_lookup in Hlo. specialize (Hlo (S (length l1)) b).
    rewrite lookup_take_lt in Hlo by lia. specialize (Hlo Hib).
    apply leb_false_ltb in Hlo. congruence.
Qed.

End Position.

End DenialSearch.

(** X14: when the name lies after an entry [a] and not after the next
    entry [b] of a sorted registry, [search] returns the two names, except
    that the predecessor is empty when [a] is the first entry. *)
Theorem denial_search_neighbours (x : string)
    (l1 l2 : list Denial.denialref) (a b : Denial.denialref) :
  StronglySorted Denial.str_lt (Denial.name <$> (l1 ++ a :: b :: l2)) →
  String.ltb (Denial.name a) x = true →
  String.leb x (Denial.name b) = true →
  Denial.search_reg x (l1 ++ a :: b :: l2) =
    Some (if decide (l1 = []) then ""%string else Denial.name a, Denial.name b).
Proof.
  intros Hs Ha Hb. unfold Denial.search_reg.
  rewrite (DenialSearch.search_position_between x _ Hs l1 a b l2 eq_refl Ha Hb).
  assert ((l1 ++ a :: b :: l2) !! length l1 = Some a) as Hia
    by (by apply list_lookup_middle).
  assert ((l1 ++ a :: b :: l2) !! S (length l1) = Some b) as Hib.
  { rewrite (cons_middle a l1), (assoc_L (++)).
    apply list_lookup_middle. rewrite length_app. cbn. lia. }
  unfold Denial.index.
  destruct l1 as [|c l1].
  - cbn. reflexivity.
  - rewrite decide_False by done. rewrite bool_decide_false by (cbn [length]; lia).
    rewrite !bool_decide_true by lia.
    replace (Z.to_nat (Z.of_nat (S (length (c :: l1))) - 1))
      with (length (c :: l1)) by lia.
    rewrite Nat2Z.id, Hia, Hib. reflexivity.
Qed.

Lemma denial_search_neighbours_witness :
  Denial.search_reg "c" ([Denial.mkRef "a" 1] ++
      Denial.mkRef "b" 1 :: Denial.mkRef "d" 1 :: []) =
    Some (if decide ([Denial.mkRef "a" 1] = []) then ""%string
          else Denial.name (Denial.mkRef "b" 1),
          Denial.name (Denial.mkRef "d" 1)).
Proof.
  apply (denial_search_neighbours "c" [Denial.mkRef "a" 1] []
           (Denial.mkRef "b" 1) (Denial.mkRef "d" 1)).
  - repeat constructor.
  - reflexivity.
  - reflexivity.
Defined.

(** X15: whatever [search] returns on a sorted registry bounds the
    name: the successor is not below it and the predecessor is empty or
    below it. *)
Theorem denial_search_bounds_the_name (x p n : string)
    (reg : list Denial.denialref) :
  StronglySorted Denial.str_lt (Denial.name <$> reg) →
  Denial.search_reg x reg = Some (p, n) →
  String.leb x n = true ∧ (p = ""%string ∨ String.ltb p x = true).
Proof.
  intros Hs. unfold Denial.search_reg, Denial.index.
  destruct (DenialProofs.search_position x reg Hs) as (Hle & Hlo & Hhi).
  set (i := Denial.sort_Search (length reg) (Denial.name_ge reg x)) in *.
  rewrite Forall_lookup in Hlo. rewrite Forall_lookup in Hhi.
  assert (∀ r, reg !! (i + 0)%nat = Some r →
            String.leb x (Denial.name r) = true) as Hn.
  { intros r Hr. apply (Hhi 0%nat). by rewrite lookup_drop. }
  case_bool_decide as Hone.
  - rewrite bool_decide_true by lia. rewrite Nat2Z.id.
    destruct (reg !! i) as [r|] eqn:Hr; cbn [mbind option_bind]; [|done].
    intros [= <- <-]. split; [|by left].
    apply Hn. by rewrite Nat.add_0_r.
  - rewrite (bool_decide_true (0 ≤ Z.of_nat i)) by lia. rewrite Nat2Z.id.
    destruct (decide (0 ≤ Z.of_nat i - 1)) as [Hpos|Hneg];
      [rewrite bool_decide_true by done|by rewrite bool_decide_false by done].
    destruct (reg !! Z.to_nat (Z.of_nat i - 1)) as [rp|] eqn:Hrp;
      cbn [mbind option_bind]; [|done].
    destruct (reg !! i) as [r|] eqn:Hr; cbn [mbind option_bind]; [|done].
    intros [= <- <-]. split; [apply Hn; by rewrite Nat.add_0_r|]. right.
    apply (Hlo (Z.to_nat (Z.of_nat i - 1))). by rewrite lookup_take_lt by lia.
Qed.

Lemma denial_search_bounds_the_name_witness :
  String.leb "c" "d" = true ∧ ("b"%string = ""%string ∨ String.ltb "b" "c" = true).
Proof.
  apply (denial_search_bounds_the_name "c" "b" "d"
           [Denial.mkRef "a" 1; Denial.mkRef "b" 1; Denial.mkRef "d" 1]).
  - repeat constructor.
  - reflexivity.
Defined.

Module DenialEventsProofs.
Import Denial DenialProofs DenialShape DenialEvents.

Section Events.

Lemma insert_reg_bounded x reg b :
  inv reg → Forall (λ r, reference r ≤ b) reg → 0 ≤ b < maxInt →
  inv (insert_reg x reg) ∧ Forall (λ r, reference r ≤ b + 1) (insert_reg x reg).
Proof.
  intros Hinv Hb Hmax.
  assert (room_for x reg) as Hroom.
  { intros r Hr _. rewrite Forall_forall in Hb. specialize (Hb r Hr). cbn in Hb. lia. }
  split; [by apply inv_insert|].
  destruct (insert_reg_decompose x reg Hinv Hroom)
    as (l1 & l2 & old & c & Hreg & Hins & _ & _ & Hold).
  rewrite Hins. rewrite Hreg in Hb.
  apply Forall_app in Hb as [Hb1 Hb]. apply Forall_app in Hb as [Hbo Hb2].
  apply Forall_app. split; [eapply Forall_impl; [exact Hb1|]; intros r Hr; cbn in *; lia|].
  apply Forall_app. split; [|eapply Forall_impl; [exact Hb2|]; intros r Hr; cbn in *; lia].
  apply Forall_singleton. cbn.
  destruct Hold as [[-> ->]|[-> Hc]]; [lia|].
  rewrite Forall_singleton in Hbo. cbn in Hbo. lia.
Qed.

(** A registration inserts one name into each of the four registries. *)
Lemma addServiceNSEC_registries s r1 r2 r3 r4 :
  addServiceNSEC s [r1; r2; r3; r4] =
    Some [insert_reg (msg.Environment s) r1;
          insert_reg (msg.Name s +:+ "." +:+ msg.Environment s) r2;
          insert_reg (msg.Version s +:+ "." +:+ msg.Name s +:+ "."
                        +:+ msg.Environment s) r3;
          insert_reg (msg.Region s +:+ "." +:+ msg.Version s +:+ "."
                        +:+ msg.Name s +:+ "." +:+ msg.Environment s) r4].
Proof. reflexivity. Qed.

Lemma apply_event_bounded e d b :
  bounded b d → 0 ≤ b < maxInt →
  ∃ d', apply_event e d = Some d' ∧ bounded (b + 1) d'.
Proof.
  intros [Hlen Hall] Hb.
  destruct d as [|r1 [|r2 [|r3 [|r4 [|]]]]]; try done.
  apply Forall_cons in Hall as [[H1 B1] Hall].
  apply Forall_cons in Hall as [[H2 B2] Hall].
  apply Forall_cons in Hall as [[H3 B3] Hall].
  apply Forall_cons in Hall as [[H4 B4] _].
  destruct e as [s|s]; (eexists; split; [apply addServiceNSEC_registries|]);
    (split; [done|]);
    repeat (apply Forall_cons; split; [by apply insert_reg_bounded|]);
    constructor.
Qed.

Lemma replay_bounded es d b :
  bounded b d → 0 ≤ b → b + Z.of_nat (length es) ≤ maxInt →
  ∃ d', replay es d = Some d' ∧ bounded (b + Z.of_nat (length es)) d'.
Proof.
  unfold replay. revert d b. induction es as [|e es IH]; intros d b Hd Hb Hmax.
  - exists d. cbn. by rewrite Z.add_0_r.
  - cbn [foldl mbind option_bind length] in *.
    destruct (apply_event_bounded e d b Hd ltac:(lia)) as (d' & -> & Hd').
    destruct (IH d' (b + 1) Hd' ltac:(lia) ltac:(lia)) as (d'' & Hrun & Hd'').
    exists d''. split; [done|].
    by replace (b + Z.of_nat (S (length es))) with (b + 1 + Z.of_nat (length es)) by lia.
Qed.

Lemma newDenialList_bounded : bounded 0 newDenialList.
Proof.
  split; [done|]. unfold newDenialList, inv. repeat constructor.
Qed.

End Events.

End DenialEventsProofs.

(** X16: from the new index, any sequence of registration and
    deregistration events (fewer than 2^63) goes through without panic
    and leaves four registries that keep the invariant, with no count
    above the number of events. *)
Theorem denial_index_survives_service_events (es : list DenialEvents.event) :
  Z.of_nat (length es) ≤ maxInt →
  ∃ d, DenialEvents.replay es Denial.newDenialList = Some d ∧
    length d = 4%nat ∧
    Forall Denial.inv d ∧
    Forall (Forall (λ r, Denial.reference r ≤ Z.of_nat (length es))) d.
Proof.
  intros Hmax.
  destruct (DenialEventsProofs.replay_bounded es Denial.newDenialList 0
              DenialEventsProofs.newDenialList_bounded ltac:(lia) ltac:(lia))
    as (d & Hrun & Hlen & Hall).
  exists d. split_and!; try done.
  - eapply Forall_impl; [exact Hall|]. by intros reg [? _].
  - eapply Forall_impl; [exact Hall|]. by intros reg [_ ?].
Qed.

Lemma denial_index_survives_service_events_witness :
  let s := msg.mkService "east" "1-0-0" "web" "prod" in
  let es := [DenialEvents.Registered s; DenialEvents.Deregistered s] in
  ∃ d, DenialEvents.replay es Denial.newDenialList = Some d ∧
    length d = 4%nat ∧
    Forall Denial.inv d ∧
    Forall (Forall (λ r, Denial.reference r ≤ Z.of_nat (length es))) d.
Proof.
  intros s es. apply (denial_index_survives_service_events es).
  vm_compute. congruence.
Defined.

(** ** Denial records *)

Section NsecLemmas.
Import Nsec.

Variable SplitDomainName : string → list string.

Lemma search_new_index x l : Denial.search x l Denial.newDenialList = None.
Proof.
  unfold Denial.search, Denial.at_depth. case_bool_decide as Hl; [|done].
  unfold Denial.newDenialList.
  destruct (Z.to_nat (l - 1)) as [|[|[|[|n]]]]; reflexivity.
Qed.

Lemma subslice_last4 (a : list string) (dl : Z) :
  0 ≤ dl → dl + 4 ≤ Z.of_nat (length a) →
  let ls := Z.of_nat (length a) - dl in
  subslice a (if ls - 4 <? 0 then 0 else ls - 4) ls =
    Some (take 4 (drop (Z.to_nat (ls - 4)) a)).
Proof.
  intros Hdl Hlen ls. unfold subslice.
  destruct (ls - 4 <? 0) eqn:Hneg; [apply Z.ltb_lt in Hneg; lia|].
  rewrite bool_decide_true by lia. do 2 f_equal. lia.
Qed.

End NsecLemmas.

(** X17: [newNSEC] panics for a query name with no label below the zone
    (as many labels as the zone has, or fewer): it searches at depth 0 or
    slices with a negative bound. *)
Theorem newNSEC_needs_a_label_below_the_zone
    (SplitDomainName : string → list string) (z : Nsec.Zone)
    (d : list (list Denial.denialref)) (qname : string) :
  Z.of_nat (length (SplitDomainName qname)) ≤ Nsec.domainLabels z →
  Nsec.newNSEC SplitDomainName z d qname = None.
Proof.
  intros Hlen. unfold Nsec.newNSEC, Nsec.subslice.
  set (ls := Z.of_nat (length (SplitDomainName qname)) - Nsec.domainLabels z).
  assert ((ls - 4 <? 0) = true) as -> by (apply Z.ltb_lt; lia).
  case_bool_decide as Hr; [|done].
  assert (ls = 0) as -> by lia.
  cbn [mbind option_bind]. replace (Z.to_nat (0 - 0)) with 0%nat by lia.
  rewrite take_0. cbn [length Z.of_nat mbind option_bind].
  unfold Denial.search, Denial.at_depth.
  rewrite bool_decide_false by lia. done.
Qed.

Lemma newNSEC_needs_a_label_below_the_zone_witness :
  Nsec.newNSEC (λ _, ["skydns"; "local"]%string)
    (Nsec.mkZone ".skydns.local" 2)
    [[Denial.mkRef "prod" 1]; []; []; []] "skydns.local." = None.
Proof.
  apply (newNSEC_needs_a_label_below_the_zone (λ _, ["skydns"; "local"]%string)).
  vm_compute. congruence.
Defined.

(** X18: on the new index, before any service is registered, [newNSEC]
    panics for every query name. *)
Theorem newNSEC_panics_on_new_index
    (SplitDomainName : string → list string) (z : Nsec.Zone) (qname : string) :
  Nsec.newNSEC SplitDomainName z Denial.newDenialList qname = None.
Proof.
  unfold Nsec.newNSEC.
  destruct (Nsec.subslice _ _ _) as [key|]; [|done].
  cbn [mbind option_bind]. by rewrite search_new_index.
Qed.

(** X19: for a query name with four or more labels below the zone,
    [newNSEC] searches depth 4 with the four labels next to the zone, so
    deeper names with the same four labels get the same record. *)
Theorem newNSEC_uses_four_labels
    (SplitDomainName : string → list string) (z : Nsec.Zone)
    (d : list (list Denial.denialref)) (qname : string) :
  0 ≤ Nsec.domainLabels z →
  Nsec.domainLabels z + 4 ≤ Z.of_nat (length (SplitDomainName qname)) →
  let qlabels := SplitDomainName qname in
  let key :=
    take 4 (drop (length qlabels - Z.to_nat (Nsec.domainLabels z) - 4) qlabels) in
  Nsec.newNSEC SplitDomainName z d qname =
    ('(prev, next) ← Denial.search (Nsec.Join key ".") 4 d;
     Some (Nsec.nsec_record z prev next)).
Proof.
  intros Hdl Hlen qlabels key. unfold Nsec.newNSEC.
  rewrite (subslice_last4 _ _ Hdl Hlen). cbn [mbind option_bind].
  subst key qlabels.
  replace (Z.to_nat (Z.of_nat (length (SplitDomainName qname))
                     - Nsec.domainLabels z - 4))
    with (length (SplitDomainName qname)
          - Z.to_nat (Nsec.domainLabels z) - 4)%nat by lia.
  rewrite length_take, length_drop.
  replace (Z.of_nat _) with 4; [done|]. lia.
Qed.

Lemma newNSEC_uses_four_labels_witness :
  let split := λ _ : string,
    ["host"; "east"; "1-0-0"; "web"; "prod"; "skydns"; "local"]%string in
  let z := Nsec.mkZone ".skydns.local" 2 in
  let d := Denial.newDenialList in
  let qlabels := split "q"%string in
  let key :=
    take 4 (drop (length qlabels - Z.to_nat (Nsec.domainLabels z) - 4) qlabels) in
  Nsec.newNSEC split z d "q" =
    ('(prev, next) ← Denial.search (Nsec.Join key ".") 4 d;
     Some (Nsec.nsec_record z prev next)).
Proof.
  intros split z d.
  apply (newNSEC_uses_four_labels split z d "q"); vm_compute; congruence.
Defined.

(** X20: [nsec] never touches the answer and additional sections, the
    response code or the truncation flag; it appends at most one NSEC
    record to the authority section, and only for a name error or for a
    success whose authority section is a single SOA record. *)
Theorem nsec_adds_at_most_one_record
    (SplitDomainName : string → list string) (z : Nsec.Zone)
    (d : list (list Denial.denialref)) (question : list string)
    (m m' : Signer.Msg) :
  Nsec.nsec SplitDomainName z d question m = Some m' →
  Signer.Rcode m' = Signer.Rcode m ∧
  Signer.Answer m' = Signer.Answer m ∧
  Signer.Extra m' = Signer.Extra m ∧
  Signer.Truncated m' = Signer.Truncated m ∧
  (Signer.Ns m' = Signer.Ns m ∨
   ∃ q prev next,
     head question = Some q ∧
     Signer.Ns m' = Signer.Ns m ++ [Nsec.nsec_record z prev next] ∧
     (Signer.Rcode m = Nsec.RcodeNameError ∨
      Signer.Rcode m = Nsec.RcodeSuccess ∧
      ∃ r ns mbox serial refresh retry expire minttl,
        Signer.Ns m = [r] ∧
        Data r = SOA ns mbox serial refresh retry expire minttl)).
Proof.
  assert (∀ m0 m1, Nsec.add_nsec SplitDomainName z d question m0 = Some m1 →
            Signer.Rcode m1 = Signer.Rcode m0 ∧
            Signer.Answer m1 = Signer.Answer m0 ∧
            Signer.Extra m1 = Signer.Extra m0 ∧
            Signer.Truncated m1 = Signer.Truncated m0 ∧
            ∃ q prev next, head question = Some q ∧
              Signer.Ns m1 = Signer.Ns m0 ++ [Nsec.nsec_record z prev next])
    as Hadd.
  { intros m0 m1. unfold Nsec.add_nsec, Nsec.newNSEC.
    destruct (head question) as [q|]; [|done]. cbn [mbind option_bind].
    destruct (Nsec.subslice _ _ _) as [key|]; [|done]. cbn [mbind option_bind].
    destruct (Denial.search _ _ _) as [[prev next]|]; [|done].
    cbn [mbind option_bind]. intros [= <-]. cbn. eauto 10. }
  unfold Nsec.nsec. intros Hrun.
  destruct (decide (Signer.Rcode m = Nsec.RcodeNameError)) as [Hnx|Hnx].
  - destruct (Nsec.add_nsec SplitDomainName z d question m) as [m1|] eqn:H1;
      [|done].
    cbn [mbind option_bind] in Hrun.
    destruct (Hadd m m1 H1) as (Hr & Ha & He & Ht & q & prev & next & Hq & Hns).
    rewrite decide_False in Hrun
      by (rewrite Hr, Hnx; unfold Nsec.RcodeNameError, Nsec.RcodeSuccess; lia).
    injection Hrun as <-. split_and!; try done.
    right. exists q, prev, next. eauto.
  - cbn [mbind option_bind] in Hrun.
    destruct (decide (Signer.Rcode m = Nsec.RcodeSuccess)) as [Hok|Hok];
      [|injection Hrun as <-; split_and!; auto].
    destruct (Signer.Ns m) as [|r [|r' rest]] eqn:Hns;
      [injection Hrun as <-; split_and!; auto| |
       injection Hrun as <-; split_and!; auto].
    destruct (Data r) eqn:Hdata;
      try (injection Hrun as <-; split_and!; auto; fail).
    destruct (Hadd m m' Hrun) as (Hr & Ha & He & Ht & q & prev & next & Hq & Hns').
    split_and!; try done. right. exists q, prev, next.
    rewrite Hns in Hns'. split_and!; try done. right. split; [done|].
    eauto 10.
Qed.

Lemma nsec_adds_at_most_one_record_witness :
  let m := Signer.mkMsg Nsec.RcodeSuccess
             [mkRR (mkHeader "web.prod.skydns.local." TypeA ClassINET 60 4)
                   (A [10; 0; 0; 1])] [] [] false in
  Signer.Rcode m = Signer.Rcode m ∧
  Signer.Answer m = Signer.Answer m ∧
  Signer.Extra m = Signer.Extra m ∧
  Signer.Truncated m = Signer.Truncated m ∧
  (Signer.Ns m = Signer.Ns m ∨
   ∃ q prev next,
     head ["web.prod.skydns.local."%string] = Some q ∧
     Signer.Ns m = Signer.Ns m ++
       [Nsec.nsec_record (Nsec.mkZone ".skydns.local" 2) prev next] ∧
     (Signer.Rcode m = Nsec.RcodeNameError ∨
      Signer.Rcode m = Nsec.RcodeSuccess ∧
      ∃ r ns mbox serial refresh retry expire minttl,
        Signer.Ns m = [r] ∧
        Data r = SOA ns mbox serial refresh retry expire minttl)).
Proof.
  intros m.
  apply (nsec_adds_at_most_one_record
           (λ _, ["web"; "prod"; "skydns"; "local"]%string)
           (Nsec.mkZone ".skydns.local" 2) Denial.newDenialList
           ["web.prod.skydns.local."%string] m m).
  reflexivity.
Defined.

(** ** The signer *)

Section SignFrame.

Variable PrivateKey : Type.
Variable Sign : PrivateKey → RRSIG → list RR → RRSIG * option string.
Variable Len : Signer.Msg → Z.
Variable ValidityPeriod : RRSIG → Z → bool.
Variable srv : Signer.Server PrivateKey.

Lemma sign_fresh_appends now k r c section c' section' :
  Signer.sign_fresh PrivateKey Sign srv now k r c section = Some (c', section') →
  ∃ sigs, section' = section ++ (rr_of_sig <$> sigs).
Proof.
  unfold Signer.sign_fresh, Signer.sign_fresh_with. rewrite Do_alone_runs. cbn [mbind option_bind].
  destruct (Sign _ _ _) as [sig [e|]]; intros [= <- <-].
  - exists []. by rewrite app_nil_r.
  - by exists [sig].
Qed.

Lemma sign_set_appends now r st st' :
  Signer.sign_set PrivateKey Sign ValidityPeriod srv now r st = Some st' →
  ∃ sigs, st'.2 = st.2 ++ (rr_of_sig <$> sigs).
Proof.
  unfold Signer.sign_set, Signer.sign_set_with.
  destruct (SigCache.key r) as [k|]; [|done]. cbn [mbind option_bind].
  destruct st' as [c' section'].
  destruct (SigCache.search k st.1) as [sig|].
  - destruct (ValidityPeriod sig _).
    + intros [= <- <-]. by exists [sig].
    + apply sign_fresh_appends.
  - apply sign_fresh_appends.
Qed.

Lemma sign_section_appends now c section c' section' :
  Signer.sign_section PrivateKey Sign ValidityPeriod srv now c section
    = Some (c', section') →
  ∃ sigs, section' = section ++ (rr_of_sig <$> sigs).
Proof.
  unfold Signer.sign_section.
  generalize (match rrSets section with
              | Some m => (λ kv, Slice.elems kv.2) <$> map_to_list m
              | None => []
              end).
  intros sets.
  assert (∀ st st', foldl (λ st r, st ≫= Signer.sign_set PrivateKey Sign
                                     ValidityPeriod srv now r) (Some st) sets
                    = Some st' →
            ∃ sigs, st'.2 = st.2 ++ (rr_of_sig <$> sigs)) as Hfold.
  { induction sets as [|r sets IH]; intros st st' Hrun.
    - injection Hrun as <-. exists []. by rewrite app_nil_r.
    - cbn [foldl mbind option_bind] in Hrun.
      destruct (Signer.sign_set PrivateKey Sign ValidityPeriod srv now r st)
        as [st1|] eqn:H1.
      + destruct (sign_set_appends now r st st1 H1) as [sigs1 E1].
        destruct (IH st1 st' Hrun) as [sigs2 E2].
        exists (sigs1 ++ sigs2). by rewrite E2, E1, fmap_app, (assoc_L (++)).
      + exfalso. clear -Hrun. induction sets as [|r' sets IH]; [done|].
        by apply IH. }
  intros Hrun. apply (Hfold (c, section) (c', section') Hrun).
Qed.

End SignFrame.

(** X21: [sign] returns for every message; it keeps the response code,
    keeps the answer and authority records in place and appends only
    signatures to them, and appends the OPT record to the additional
    section. *)
Theorem sign_only_appends (PrivateKey : Type)
    (Sign : PrivateKey → RRSIG → list RR → RRSIG * option string)
    (Len : Signer.Msg → Z) (ValidityPeriod : RRSIG → Z → bool)
    (srv : Signer.Server PrivateKey) (now bufsize : Z)
    (c : gmap (list Z) RRSIG) (m : Signer.Msg) :
  ∃ c' m' sigs_answer sigs_ns,
    Signer.sign PrivateKey Sign Len ValidityPeriod srv now bufsize c m
      = Some (c', m') ∧
    Signer.Rcode m' = Signer.Rcode m ∧
    Signer.Answer m' = Signer.Answer m ++ (rr_of_sig <$> sigs_answer) ∧
    Signer.Ns m' = Signer.Ns m ++ (rr_of_sig <$> sigs_ns) ∧
    Signer.Extra m' = Signer.Extra m ++ [Signer.opt_record].
Proof.
  unfold Signer.sign.
  destruct (sign_section_returns PrivateKey Sign ValidityPeriod srv now c
              (Signer.Answer m)) as [[c1 ans] H1].
  rewrite H1. cbn [mbind option_bind].
  destruct (sign_section_returns PrivateKey Sign ValidityPeriod srv now c1
              (Signer.Ns m)) as [[c2 ns] H2].
  rewrite H2. cbn [mbind option_bind].
  destruct (sign_section_appends _ _ _ _ _ _ _ _ _ H1) as [sa Ha].
  destruct (sign_section_appends _ _ _ _ _ _ _ _ _ H2) as [sn Hn].
  exists c2. eexists. exists sa, sn. split; [reflexivity|].
  rewrite set_truncated_always. cbn. by rewrite Ha, Hn.
Qed.

(** X22: when no usable signature is cached and signing fails, the loop
    body of [sign] appends nothing and leaves no entry for the fingerprint
    in the cache. *)
Theorem sign_set_signing_failure (PrivateKey : Type)
    (Sign : PrivateKey → RRSIG → list RR → RRSIG * option string)
    (ValidityPeriod : RRSIG → Z → bool) (srv : Signer.Server PrivateKey)
    (now : Z) (r : list RR) (k : list Z) (c : gmap (list Z) RRSIG)
    (section : list RR) (sig : RRSIG) (e : string) :
  SigCache.key r = Some k →
  (∀ cached, SigCache.search k c = Some cached →
     ValidityPeriod cached (Signer.check_time now) = false) →
  Sign (Signer.Privkey _ srv)
       (Signer.newRRSIG _ srv (Signer.incep_of now) (Signer.expir_of now)) r
    = (sig, Some e) →
  Signer.sign_set PrivateKey Sign ValidityPeriod srv now r (c, section)
    = Some (SigCache.remove k c, section) ∧
  SigCache.search k (SigCache.remove k c) = None.
Proof.
  intros Hk Hstale Hsign.
  assert (Signer.sign_fresh PrivateKey Sign srv now k r (SigCache.remove k c)
            section = Some (SigCache.remove k c, section)) as Hfresh.
  { unfold Signer.sign_fresh, Signer.sign_fresh_with. rewrite Do_alone_runs. cbn [mbind option_bind].
    by rewrite Hsign. }
  split; [|apply lookup_delete_eq].
  unfold Signer.sign_set, Signer.sign_set_with. rewrite Hk. cbn [mbind option_bind fst snd].
  destruct (SigCache.search k c) as [cached|] eqn:Hc.
  - by rewrite (Hstale cached eq_refl).
  - unfold Signer.sign_fresh, Signer.sign_fresh_with. rewrite Do_alone_runs. cbn [mbind option_bind].
    rewrite Hsign. unfold SigCache.remove. by rewrite delete_id.
Qed.

Lemma sign_set_signing_failure_witness :
  let r := [mkRR (mkHeader "web.prod." TypeA ClassINET 60 4) (A [10; 0; 0; 1])] in
  let srv := Signer.mkServer unit 5 "prod." 7 tt in
  let Sign := λ (_ : unit) (s : RRSIG) (_ : list RR), (s, Some "no key"%string) in
  ∃ k, SigCache.key r = Some k ∧
    Signer.sign_set unit Sign (λ _ _, true) srv 1400000000 r (∅, [])
      = Some (SigCache.remove k ∅, []) ∧
    SigCache.search k (SigCache.remove k ∅) = None.
Proof.
  intros r srv Sign. eexists. split; [reflexivity|].
  eapply (sign_set_signing_failure unit Sign (λ _ _, true) srv 1400000000 r).
  - reflexivity.
  - intros cached Hc. unfold SigCache.search in Hc.
    by rewrite lookup_empty in Hc.
  - reflexivity.
Defined.




(** X24: a signature that [sign] made at [now0] and cached is not
    served by the loop body of [sign] during the next 22 hours: the check
    at [now - 24h] fails and the set is signed again. *)
Theorem sign_set_rejects_its_fresh_signature (PrivateKey : Type)
    (Sign : PrivateKey → RRSIG → list RR → RRSIG * option string)
    (srv : Signer.Server PrivateKey)
    (now0 now : Z) (r : list RR) (k : list Z) (c : gmap (list Z) RRSIG)
    (section : list RR) (sig : RRSIG) :
  7200 ≤ now0 → now0 ≤ now → now < now0 + 22 * 3600 → now < 2 ^ 31 →
  Inception (sigData sig) = Signer.incep_of now0 →
  Expiration (sigData sig) = Signer.expir_of now0 →
  SigCache.key r = Some k →
  SigCache.search k c = Some sig →
  Signer.sign_set PrivateKey Sign Signer.dns_ValidityPeriod srv now r (c, section)
    = Signer.sign_fresh PrivateKey Sign srv now k r (SigCache.remove k c) section.
Proof.
  intros H1 H2 H3 H4 Hi He Hk Hc.
  destruct sig as [hdr d].
  apply (sign_set_stale _ _ _ _ _ _ _ (mkRRSIG hdr d)); [done|exact Hc|].
  exact (fresh_signature_fails_check now0 now hdr d H1 H2 H3 H4 Hi He).
Qed.

Lemma sign_set_rejects_its_fresh_signature_witness :
  let r := [mkRR (mkHeader "web.prod." TypeA ClassINET 60 4) (A [10; 0; 0; 1])] in
  let srv := Signer.mkServer unit 5 "prod." 7 tt in
  let Sign := λ (_ : unit) (s : RRSIG) (_ : list RR), (s, @None string) in
  let sig := Signer.newRRSIG unit srv (Signer.incep_of 1400000000)
               (Signer.expir_of 1400000000) in
  ∃ k, SigCache.key r = Some k ∧
    Signer.sign_set unit Sign Signer.dns_ValidityPeriod srv 1400003600 r
        ({[k := sig]}, [])
      = Signer.sign_fresh unit Sign srv 1400003600 k r
          (SigCache.remove k {[k := sig]}) [].
Proof.
  intros r srv Sign sig. eexists. split; [reflexivity|].
  apply (sign_set_rejects_its_fresh_signature unit Sign srv
           1400000000 1400003600 r _ _ [] sig); try lia; try reflexivity.
Defined.

(** ** The single-flight coordinator *)

Module SingleFlightSeqProofs.
Import SingleFlight SingleFlightSeq.

Section Sequential.

Context {K : Type} `{Countable K} {R : Type}.
Variable key : nat → K.
Variable fn : nat → R.

Lemma caller_runs_alone n j :
  (j < n)%nat →
  run key fn [j; j; j; j] (after_callers fn n j) = after_callers fn n (S j).
Proof.
  intros Hj. unfold run. cbn [foldl].
  set (done := (λ t, mkCall (Some (fn t)) true 0) <$> seq 0 j).
  set (ret := (λ t, @Returned R t (Some (fn t)) false) <$> seq 0 j).
  assert (length done = j) as Hld by (unfold done; by rewrite length_fmap, length_seq).
  assert (length ret = j) as Hlr by (unfold ret; by rewrite length_fmap, length_seq).
  assert (replicate (n - j) (@Start R) = Start :: replicate (n - S j) Start) as Hrep.
  { replace (n - j)%nat with (S (n - S j)) by lia. done. }
  (* first critical section: nothing is registered *)
  assert (step key fn j (after_callers fn n j) =
          mkState (done ++ [mkCall None false 0]) (<[key j := j]> ∅)
            (ret ++ Running j :: replicate (n - S j) Start) (seq 0 j)) as ->.
  { unfold step, after_callers. cbn [threads g_m heap invoked].
    fold done ret. rewrite Hrep.
    rewrite list_lookup_middle by done. rewrite lookup_empty.
    rewrite Hld. f_equal.
    rewrite insert_app_r_alt by lia. by rewrite Hlr, Nat.sub_diag. }
  (* the call of [fn] *)
  assert (step key fn j
            (mkState (done ++ [mkCall None false 0]) (<[key j := j]> ∅)
               (ret ++ Running j :: replicate (n - S j) Start) (seq 0 j)) =
          mkState (done ++ [mkCall (Some (fn j)) true 0]) (<[key j := j]> ∅)
            (ret ++ Cleanup j :: replicate (n - S j) Start) (seq 0 j ++ [j]))
    as ->.
  { unfold step. cbn [threads g_m heap invoked].
    rewrite list_lookup_middle by done.
    rewrite list_lookup_middle by done. cbn [dups]. f_equal.
    - rewrite insert_app_r_alt by lia. by rewrite Hld, Nat.sub_diag.
    - rewrite insert_app_r_alt by lia. by rewrite Hlr, Nat.sub_diag. }
  (* second critical section *)
  assert (step key fn j
            (mkState (done ++ [mkCall (Some (fn j)) true 0]) (<[key j := j]> ∅)
               (ret ++ Cleanup j :: replicate (n - S j) Start) (seq 0 j ++ [j])) =
          mkState (done ++ [mkCall (Some (fn j)) true 0]) ∅
            (ret ++ Leaving j :: replicate (n - S j) Start) (seq 0 j ++ [j]))
    as ->.
  { unfold step. cbn [threads g_m heap invoked].
    rewrite list_lookup_middle by done. f_equal.
    - by rewrite delete_insert_eq, delete_empty.
    - rewrite insert_app_r_alt by lia. by rewrite Hlr, Nat.sub_diag. }
  (* the return *)
  unfold step, after_callers. cbn [threads g_m heap invoked].
  rewrite list_lookup_middle by done.
  rewrite list_lookup_middle by done. cbn [dups res].
  rewrite bool_decide_false by lia.
  f_equal.
  - by rewrite seq_S, fmap_app.
  - rewrite insert_app_r_alt by lia. rewrite Hlr, Nat.sub_diag.
    rewrite seq_S, fmap_app, <-(assoc_L (++)). done.
  - by rewrite seq_S.
Qed.

Lemma callers_run_one_by_one n j :
  (j ≤ n)%nat →
  run key fn (one_by_one j) (init n) = after_callers fn n j.
Proof.
  induction j as [|j IH]; intros Hj.
  - unfold after_callers, init. cbn. by rewrite Nat.sub_0_r.
  - unfold one_by_one in *. rewrite seq_S, bind_app. cbn [mbind list_bind].
    unfold run in *. rewrite foldl_app, IH by lia.
    rewrite app_nil_r. by apply caller_runs_alone.
Qed.

End Sequential.

End SingleFlightSeqProofs.

(** X25: when the callers of [Do] run one after another, each one
    invokes its own [fn], gets its result as not shared, and [g.m] is
    empty at the end, whatever the keys. *)
Theorem single_flight_one_after_another {K : Type} `{Countable K} {R : Type}
    (key : nat → K) (fn : nat → R) (n : nat) :
  let fin := SingleFlight.run key fn (SingleFlightSeq.one_by_one n)
               (SingleFlight.init n) in
  SingleFlight.invoked fin = seq 0 n ∧
  SingleFlight.g_m fin = ∅ ∧
  ∀ t, (t < n)%nat → SingleFlight.result fin t = Some (Some (fn t), false).
Proof.
  intros fin. unfold fin.
  rewrite (SingleFlightSeqProofs.callers_run_one_by_one key fn n n) by lia.
  split_and!; [done|done|].
  intros t Ht. unfold SingleFlight.result, SingleFlightSeq.after_callers.
  cbn [SingleFlight.threads].
  rewrite lookup_app_l by (by rewrite length_fmap, length_seq).
  rewrite list_lookup_fmap, lookup_seq_lt by done. done.
Qed.

Module SingleFlightSafeProofs.
Import SingleFlight SingleFlightSafe.

Section Safe.

Context {K : Type} `{Countable K} {R : Type}.
Variable key : nat → K.
Variable fn : nat → R.

Local Abbreviation safe1 := (safe (R := R) key fn).

Lemma init_safe n : safe1 (init n).
Proof.
  assert (∀ t p, threads (init (K := K) (R := R) n) !! t = Some p → p = Start) as Hst.
  { intros t p Ht. cbn in Ht. by apply lookup_replicate in Ht as [-> _]. }
  unfold safe. split_and!.
  - intros t p c Ht Hc. by rewrite (Hst t p Ht) in Hc.
  - intros t t' p p' c Ht _ Hc. by rewrite (Hst t p Ht) in Hc.
  - intros k c Hk. cbn in Hk. by rewrite lookup_empty in Hk.
  - intros t c Ht. by apply Hst in Ht.
  - intros t t' p c Ht. by apply Hst in Ht.
  - intros t p c Ht [-> | ->]; by apply Hst in Ht.
  - intros c cl Hc. by cbn in Hc.
  - intros t c r sh Ht. by apply Hst in Ht.
Qed.

Ltac thread H :=
  apply list_lookup_insert_Some in H as [(? & ? & ?)|(? & H)]; simplify_eq/=.

Ltac holds H :=
  destruct H as [[H|H]|[H|H]]; simplify_eq/=.

Lemma executes_call_of (p : @pc R) c : executes p c → call_of p = Some c.
Proof. by intros [-> | ->]. Qed.

Lemma called_call_of (p : @pc R) c : called p c → call_of p = Some c.
Proof. by intros [-> | ->]. Qed.

Lemma holds_call_of (p : @pc R) c :
  executes p c ∨ called p c → call_of p = Some c.
Proof. intros [?|?]; [by apply executes_call_of|by apply called_call_of]. Qed.

(** The first critical section with nothing registered for the key. *)
Lemma step_register t s :
  safe1 s → threads s !! t = Some Start → g_m s !! key t = None →
  safe1 {| heap := heap s ++ [mkCall None false 0];
           g_m := <[key t := length (heap s)]> (g_m s);
           threads := <[t := Running (length (heap s))]> (threads s);
           invoked := invoked s |}.
Proof.
  intros (I2 & I3 & I4 & I6 & I7 & I8 & I1 & I5) Ht Hm.
  unfold safe. cbn [heap g_m threads invoked]. split_and!.
  - intros t1 p c H1 Hc. rewrite length_app. cbn.
    thread H1; [lia|].
    specialize (I2 _ _ _ H1 Hc). lia.
  - intros t1 t2 p1 p2 c H1 H2 Hc1 Hc2.
    thread H1; thread H2; try done.
    + specialize (I2 _ _ _ H2 Hc2). lia.
    + specialize (I2 _ _ _ H1 Hc1). lia.
    + eauto.
  - intros k c Hk. apply lookup_insert_Some in Hk as [[<- <-]|[Hne Hk]].
    + exists t, (Running (length (heap s))).
      split_and!; [|by left|done].
      apply list_lookup_insert_eq. by eapply lookup_lt_Some.
    + destruct (I4 k c Hk) as (e & p & He & Hex & Hke).
      exists e, p. split_and!; try done.
      rewrite list_lookup_insert_ne; [done|]. intros <-.
      rewrite Ht in He. injection He as <-. by destruct Hex.
  - intros t1 c H1. thread H1.
    + eexists. by rewrite list_lookup_middle.
    + destruct (I6 _ _ H1) as (cl & Hcl & Hd). exists cl.
      split; [|done]. by apply lookup_app_l_Some.
  - intros t1 t2 p c H1 H2 Hex. thread H1; thread H2; try done.
    + exfalso. pose proof (holds_call_of _ _ Hex) as Hc.
      specialize (I2 _ _ _ H2 Hc). lia.
    + exfalso. holds Hex; specialize (I2 _ _ _ H1 eq_refl); lia.
    + eauto.
  - intros t1 p c H1 Hcd. thread H1; [by destruct Hcd|].
    destruct (I8 _ _ _ H1 Hcd) as (cl & Hcl & ?). exists cl.
    split; [by apply lookup_app_l_Some|done].
  - intros c cl Hc Hd. apply lookup_app_Some in Hc as [Hc|[_ Hc]].
    + destruct (I1 c cl Hc Hd) as (e & p & Hr & Hi & He & Hcall).
      exists e, p. split_and!; try done.
      rewrite list_lookup_insert_ne; [done|]. intros <-.
      rewrite Ht in He. injection He as <-. done.
    + apply list_lookup_singleton_Some in Hc as [_ <-]. done.
  - intros t1 c r sh H1. thread H1; try done. eauto.
Qed.

(** The first critical section with a call registered for the key. *)
Lemma step_join t s c cl d :
  safe1 s → threads s !! t = Some Start → g_m s !! key t = Some c →
  heap s !! c = Some cl →
  safe1 {| heap := <[c := mkCall (res cl) (wg_done cl) d]> (heap s);
           g_m := g_m s;
           threads := <[t := Waiting c]> (threads s);
           invoked := invoked s |}.
Proof.
  intros (I2 & I3 & I4 & I6 & I7 & I8 & I1 & I5) Ht Hm Hcl.
  pose proof (lookup_lt_Some _ _ _ Hcl) as Hclt.
  destruct (I4 _ _ Hm) as (e0 & p0 & He0 & Hex0 & Hk0).
  pose proof (executes_call_of _ _ Hex0) as Hc0.
  assert (∀ c1 cl1, <[c := mkCall (res cl) (wg_done cl) d]> (heap s) !! c1
                      = Some cl1 →
            ∃ cl0, heap s !! c1 = Some cl0 ∧ res cl1 = res cl0 ∧
                   wg_done cl1 = wg_done cl0) as Hheap.
  { intros c1 cl1 H1.
    apply list_lookup_insert_Some in H1 as [(<- & <- & _)|(_ & H1)]; eauto. }
  assert (∀ c1 cl0, heap s !! c1 = Some cl0 →
            ∃ cl1, <[c := mkCall (res cl) (wg_done cl) d]> (heap s) !! c1
                     = Some cl1 ∧ res cl1 = res cl0 ∧
                   wg_done cl1 = wg_done cl0) as Hheap'.
  { intros c1 cl0 H1. destruct (decide (c1 = c)) as [->|Hne].
    - rewrite list_lookup_insert_eq by done. simplify_eq. eauto.
    - rewrite list_lookup_insert_ne by done. eauto. }
  unfold safe. cbn [heap g_m threads invoked]. split_and!.
  - intros t1 p c1 H1 Hc. rewrite length_insert.
    thread H1; [done|]. eauto.
  - intros t1 t2 p1 p2 c1 H1 H2 Hc1 Hc2.
    thread H1; thread H2; try done.
    + rewrite <-Hk0. eapply I3; eauto.
    + rewrite <-Hk0. symmetry. eapply I3; eauto.
    + eauto.
  - intros k c1 Hk. destruct (I4 k c1 Hk) as (e & p & He & Hex & Hke).
    exists e, p. split_and!; try done.
    rewrite list_lookup_insert_ne; [done|]. intros <-.
    rewrite Ht in He. injection He as <-. by destruct Hex.
  - intros t1 c1 H1. thread H1.
    destruct (I6 _ _ H1) as (cl0 & Hcl0 & Hd0).
    destruct (Hheap' _ _ Hcl0) as (cl1 & ? & _ & ?). exists cl1.
    split; [done|congruence].
  - intros t1 t2 p c1 H1 H2 Hex. thread H1. thread H2.
    + by holds Hex.
    + eauto.
  - intros t1 p c1 H1 Hcd. thread H1; [by destruct Hcd|].
    destruct (I8 _ _ _ H1 Hcd) as (cl0 & Hcl0 & Hd0 & Hr0 & Hi0).
    destruct (Hheap' _ _ Hcl0) as (cl1 & ? & ? & ?). exists cl1.
    split_and!; [done|congruence|congruence|done].
  - intros c1 cl1 H1 Hd. destruct (Hheap _ _ H1) as (cl0 & Hcl0 & Hr & Hd0).
    rewrite Hd0 in Hd.
    destruct (I1 _ _ Hcl0 Hd) as (e & p & Hre & Hi & He & Hcall).
    exists e, p. split_and!; [congruence|done| |done].
    rewrite list_lookup_insert_ne; [done|]. intros <-.
    rewrite Ht in He. injection He as <-. done.
  - intros t1 c1 r sh H1. thread H1. eauto.
Qed.

(** The call of [fn] with [c.wg.Done()]. *)
Lemma step_call t s c cl :
  safe1 s → threads s !! t = Some (Running c) → heap s !! c = Some cl →
  safe1 {| heap := <[c := mkCall (Some (fn t)) true (dups cl)]> (heap s);
           g_m := g_m s;
           threads := <[t := Cleanup c]> (threads s);
           invoked := invoked s ++ [t] |}.
Proof.
  intros (I2 & I3 & I4 & I6 & I7 & I8 & I1 & I5) Ht Hcl.
  pose proof (lookup_lt_Some _ _ _ Hcl) as Hclt.
  pose proof (lookup_lt_Some _ _ _ Ht) as Htlt.
  unfold safe. cbn [heap g_m threads invoked]. split_and!.
  - intros t1 p c1 H1 Hc. rewrite length_insert.
    thread H1; [done|]. eauto.
  - intros t1 t2 p1 p2 c1 H1 H2 Hc1 Hc2.
    thread H1; thread H2; try done.
    + eapply I3; eauto; done.
    + eapply I3; eauto; done.
    + eauto.
  - intros k c1 Hk. destruct (I4 k c1 Hk) as (e & p & He & Hex & Hke).
    destruct (decide (e = t)) as [->|Hne].
    + exists t, (Cleanup c). rewrite list_lookup_insert_eq by done.
      split_and!; try done. rewrite Ht in He. injection He as <-.
      destruct Hex as [Hex|Hex]; simplify_eq. by right.
    + exists e, p. by rewrite list_lookup_insert_ne.
  - intros t1 c1 H1. thread H1.
    destruct (I6 _ _ H1) as (cl0 & Hcl0 & Hd0). exists cl0. split; [|done].
    rewrite list_lookup_insert_ne; [done|]. intros <-.
    assert (t1 = t) by (eapply I7; [done|done|by left; left]). done.
  - intros t1 t2 p c1 H1 H2 Hex. thread H1. thread H2.
    + holds Hex; (eapply I7; [exact H1|exact Ht|by left; left]).
    + eauto.
  - intros t1 p c1 H1 Hcd. thread H1.
    + destruct Hcd as [Hcd|Hcd]; simplify_eq.
      eexists. rewrite list_lookup_insert_eq by done.
      split_and!; try done. apply elem_of_app. right. by apply list_elem_of_singleton.
    + destruct (I8 _ _ _ H1 Hcd) as (cl0 & Hcl0 & Hd0 & Hr0 & Hi0). exists cl0.
      split_and!; try done.
      * rewrite list_lookup_insert_ne; [done|]. intros <-.
        assert (t = t1) by (eapply I7; [done|done|by right]). done.
      * apply elem_of_app. by left.
  - intros c1 cl1 H1 Hd.
    apply list_lookup_insert_Some in H1 as [(<- & <- & _)|(Hne & H1)].
    + exists t, (Cleanup c). rewrite list_lookup_insert_eq by done.
      split_and!; try done. apply elem_of_app. right. by apply list_elem_of_singleton.
    + destruct (I1 _ _ H1 Hd) as (e & p & Hre & Hi & He & Hcall).
      exists e, p. split_and!; try done.
      * apply elem_of_app. by left.
      * rewrite list_lookup_insert_ne; [done|]. intros <-.
        rewrite Ht in He. by simplify_eq/=.
  - intros t1 c1 r sh H1. thread H1.
    destruct (I5 _ _ _ _ H1) as (e & ? & ? & ? & ?). exists e.
    split_and!; try done. apply elem_of_app. by left.
Qed.

(** The second critical section. *)
Lemma step_deregister t s c :
  safe1 s → threads s !! t = Some (Cleanup c) →
  safe1 {| heap := heap s;
           g_m := delete (key t) (g_m s);
           threads := <[t := Leaving c]> (threads s);
           invoked := invoked s |}.
Proof.
  intros (I2 & I3 & I4 & I6 & I7 & I8 & I1 & I5) Ht.
  pose proof (lookup_lt_Some _ _ _ Ht) as Htlt.
  unfold safe. cbn [heap g_m threads invoked]. split_and!.
  - intros t1 p c1 H1 Hc. thread H1; eauto.
  - intros t1 t2 p1 p2 c1 H1 H2 Hc1 Hc2.
    thread H1; thread H2; try done.
    + eapply I3; eauto; done.
    + eapply I3; eauto; done.
    + eauto.
  - intros k c1 Hk. apply lookup_delete_Some in Hk as [Hne Hk].
    destruct (I4 k c1 Hk) as (e & p & He & Hex & Hke).
    exists e, p. split_and!; try done.
    rewrite list_lookup_insert_ne; [done|]. by intros <-.
  - intros t1 c1 H1. thread H1. eauto.
  - intros t1 t2 p c1 H1 H2 Hex. thread H1. thread H2.
    + holds Hex; (eapply I7; [exact H1|exact Ht|by left; right]).
    + eauto.
  - intros t1 p c1 H1 Hcd. thread H1.
    + destruct Hcd as [Hcd|Hcd]; simplify_eq.
      eapply I8; [exact Ht|by left].
    + eauto.
  - intros c1 cl1 H1 Hd.
    destruct (I1 _ _ H1 Hd) as (e & p & Hre & Hi & He & Hcall).
    destruct (decide (e = t)) as [->|Hne].
    + eexists t, _. rewrite list_lookup_insert_eq by done.
      split_and!; try done. rewrite Ht in He. by simplify_eq/=.
    + exists e, p. by rewrite list_lookup_insert_ne.
  - intros t1 c1 r sh H1. thread H1. eauto.
Qed.

(** The return of the caller that executed [fn]. *)
Lemma step_leave t s c cl b :
  safe1 s → threads s !! t = Some (Leaving c) → heap s !! c = Some cl →
  safe1 {| heap := heap s;
           g_m := g_m s;
           threads := <[t := Returned c (res cl) b]> (threads s);
           invoked := invoked s |}.
Proof.
  intros (I2 & I3 & I4 & I6 & I7 & I8 & I1 & I5) Ht Hcl.
  pose proof (lookup_lt_Some _ _ _ Ht) as Htlt.
  unfold safe. cbn [heap g_m threads invoked]. split_and!.
  - intros t1 p c1 H1 Hc. thread H1; eauto.
  - intros t1 t2 p1 p2 c1 H1 H2 Hc1 Hc2.
    thread H1; thread H2; try done.
    + eapply I3; eauto; done.
    + eapply I3; eauto; done.
    + eauto.
  - intros k c1 Hk. destruct (I4 k c1 Hk) as (e & p & He & Hex & Hke).
    exists e, p. split_and!; try done.
    rewrite list_lookup_insert_ne; [done|]. intros <-.
    rewrite Ht in He. injection He as <-. by destruct Hex.
  - intros t1 c1 H1. thread H1. eauto.
  - intros t1 t2 p c1 H1 H2 Hex. thread H1. thread H2.
    + by holds Hex.
    + eauto.
  - intros t1 p c1 H1 Hcd. thread H1; [by destruct Hcd|]. eauto.
  - intros c1 cl1 H1 Hd.
    destruct (I1 _ _ H1 Hd) as (e & p & Hre & Hi & He & Hcall).
    destruct (decide (e = t)) as [->|Hne].
    + eexists t, _. rewrite list_lookup_insert_eq by done.
      split_and!; try done. rewrite Ht in He. by simplify_eq/=.
    + exists e, p. by rewrite list_lookup_insert_ne.
  - intros t1 c1 r sh H1. thread H1; [|eauto].
    destruct (I8 _ _ _ Ht (or_intror eq_refl)) as (cl0 & Hcl0 & Hd0 & Hr0 & Hi0).
    rewrite Hcl in Hcl0. simplify_eq/=.
    eexists. split_and!; [eassumption|done..].
Qed.

(** The return of a caller that waited. *)
Lemma step_wake t s c cl :
  safe1 s → threads s !! t = Some (Waiting c) → heap s !! c = Some cl →
  wg_done cl = true →
  safe1 {| heap := heap s;
           g_m := g_m s;
           threads := <[t := Returned c (res cl) true]> (threads s);
           invoked := invoked s |}.
Proof.
  intros (I2 & I3 & I4 & I6 & I7 & I8 & I1 & I5) Ht Hcl Hdone.
  pose proof (lookup_lt_Some _ _ _ Ht) as Htlt.
  unfold safe. cbn [heap g_m threads invoked]. split_and!.
  - intros t1 p c1 H1 Hc. thread H1; eauto.
  - intros t1 t2 p1 p2 c1 H1 H2 Hc1 Hc2.
    thread H1; thread H2; try done.
    + eapply I3; eauto; done.
    + eapply I3; eauto; done.
    + eauto.
  - intros k c1 Hk. destruct (I4 k c1 Hk) as (e & p & He & Hex & Hke).
    exists e, p. split_and!; try done.
    rewrite list_lookup_insert_ne; [done|]. intros <-.
    rewrite Ht in He. injection He as <-. by destruct Hex.
  - intros t1 c1 H1. thread H1. eauto.
  - intros t1 t2 p c1 H1 H2 Hex. thread H1. thread H2.
    + by holds Hex.
    + eauto.
  - intros t1 p c1 H1 Hcd. thread H1; [by destruct Hcd|]. eauto.
  - intros c1 cl1 H1 Hd.
    destruct (I1 _ _ H1 Hd) as (e & p & Hre & Hi & He & Hcall).
    destruct (decide (e = t)) as [->|Hne].
    + eexists t, _. rewrite list_lookup_insert_eq by done.
      split_and!; try done. rewrite Ht in He. by simplify_eq/=.
    + exists e, p. by rewrite list_lookup_insert_ne.
  - intros t1 c1 r sh H1. thread H1; [|eauto].
    destruct (I1 _ _ Hcl Hdone) as (e & p & Hre & Hi & He & Hcall).
    exists e. split_and!; try done.
    eapply I3; eauto; done.
Qed.

Lemma step_safe t s : safe1 s → safe1 (step key fn t s).
Proof.
  intros Hs. unfold step.
  destruct (threads s !! t) as [[|c|c|c|c|c r sh]|] eqn:Ht; try done.
  - destruct (g_m s !! key t) as [c|] eqn:Hm.
    + destruct (heap s !! c) as [cl|] eqn:Hcl; [|done].
      by apply step_join.
    + by apply step_register.
  - destruct (heap s !! c) as [cl|] eqn:Hcl; [|done]. by apply step_call.
  - by apply step_deregister.
  - destruct (heap s !! c) as [cl|] eqn:Hcl; [|done]. by apply step_leave.
  - destruct (heap s !! c) as [cl|] eqn:Hcl; [|done].
    destruct (wg_done cl) eqn:Hd; [|done]. by apply step_wake.
Qed.

Lemma run_safe sched s : safe1 s → safe1 (run key fn sched s).
Proof.
  revert s. induction sched as [|t sched IH]; intros s Hs; [done|].
  apply IH. by apply step_safe.
Qed.

End Safe.

End SingleFlightSafeProofs.

(** X26: whatever the keys and the schedule, a caller that returned
    from [Do] got what an invocation of [fn] by a caller with the same key
    returned, and a caller told that the result was not shared got what
    its own [fn] returned. *)
Theorem single_flight_results_come_from_fn {K : Type} `{Countable K}
    {R : Type} (key : nat → K) (fn : nat → R) (n : nat) (sched : list nat)
    (t : nat) (r : option R) (shared : bool) :
  SingleFlight.result (SingleFlight.run key fn sched (SingleFlight.init n)) t
    = Some (r, shared) →
  ∃ e, r = Some (fn e) ∧ key e = key t ∧
    e ∈ SingleFlight.invoked (SingleFlight.run key fn sched (SingleFlight.init n)) ∧
    (shared = false → e = t).
Proof.
  intros Hres.
  pose proof (SingleFlightSafeProofs.run_safe key fn sched _
                (SingleFlightSafeProofs.init_safe key fn n)) as Hsafe.
  destruct Hsafe as (_ & _ & _ & _ & _ & _ & _ & I5).
  unfold SingleFlight.result in Hres.
  destruct (SingleFlight.threads _ !! t) as [[| | | | |c r' sh]|] eqn:Ht; try done.
  injection Hres as -> ->.
  destruct (I5 _ _ _ _ Ht) as (e & ? & ? & ? & ?). eauto.
Qed.

Lemma single_flight_results_come_from_fn_witness :
  let key := λ t : nat, if decide (t = 2%nat) then "b"%string else "a"%string in
  let fin := SingleFlight.run key (λ t, t) [0; 1; 2; 0; 2; 0; 1; 2]%nat
               (SingleFlight.init 3) in
  ∃ e, Some 0%nat = Some e ∧ key e = key 1%nat ∧
    e ∈ SingleFlight.invoked fin ∧ (true = false → e = 1%nat).
Proof.
  intros key fin.
  apply (single_flight_results_come_from_fn key (λ t, t) 3
           [0; 1; 2; 0; 2; 0; 1; 2]%nat 1 (Some 0%nat) true).
  vm_compute. reflexivity.
Defined.
